(** * get-recursive-disk-size: a cached recursive directory size

    Shallow embedding of [src/get-recursive-disk-size.cpp].

    - [size_t] values are integers in [0, 2^64) with the wrap-around of
      unsigned arithmetic written out ([to_size_t], [add_size_t]).
    - The [std::filesystem] primitives the program consumes ([status],
      [file_size], [last_write_time], [recursive_directory_iterator]) are
      modelled in [Module fs] over a tree of directory entries.
    - C++ exceptions are an explicit [Throw] result; the global [cache] is a
      field of the program state, threaded through a small state-and-exception
      monad.
    - The filesystem is owned by the environment, not by the program: the
      [n]-th filesystem access of the process sees the snapshot [disk n]. *)

From stdpp Require Import base gmap strings list fin_maps.
From Stdlib Require Import ZArith Lia Ascii.

Local Open Scope Z_scope.

(** ** [size_t] *)

Definition size_t_modulus : Z := 2 ^ 64.

(** Conversion of an integer value to [size_t]. *)
Definition to_size_t (z : Z) : Z := z mod size_t_modulus.

(** [a += b] on [size_t]. *)
Definition add_size_t (a b : Z) : Z := to_size_t (a + b).

Definition in_size_t (z : Z) : Prop := 0 <= z < size_t_modulus.

(** ** Exceptions *)

Inductive errc :=
| no_such_file_or_directory
| permission_denied
| not_a_directory
| is_a_directory
| not_supported.

Inductive exception :=
| filesystem_error (code : errc)
| invalid_argument
| out_of_range.

Inductive result (A : Type) :=
| Ok (a : A)
| Throw (e : exception).
Arguments Ok {A} a.
Arguments Throw {A} e.

Definition is_Ok {A} (r : result A) : bool :=
  match r with Ok _ => true | Throw _ => false end.

(** ** The filesystem layer *)

Module fs.

(** [fs::path], as the string it was built from.  Paths are compared here as
    strings; [std::unordered_map<fs::path, _>] compares them element by
    element, so that two spellings of one path (["a//b"] and ["a/b"]) are one
    key for the code and two for this model. *)
Definition path := string.

Inductive file_type :=
| regular | directory | symlink | block | character | fifo | socket
| not_found.

(** The entries that are neither files, directories nor links. *)
Inductive special := block_device | character_device | named_pipe
                   | unix_socket.

Definition special_type (k : special) : file_type :=
  match k with
  | block_device => block
  | character_device => character
  | named_pipe => fifo
  | unix_socket => socket
  end.

(** A directory entry as the walk meets it.  A symbolic link carries the
    entry it resolves to ([None] when it dangles); a directory carries its
    listing ([None] when it cannot be opened); [Denied] is an entry whose
    status cannot be queried. *)
Local Unset Elimination Schemes.
Inductive node :=
| RegularFile (size : Z)
| Directory (listing : option (list (string * node)))
| Symlink (target : option node)
| Other (k : special)
| Denied.
Local Set Elimination Schemes.

(** What a path names: the tick count of its last write time (a signed
    count since the clock's epoch) and the entry found there. *)
Record inode := { mtime : Z; content : node }.

(** One snapshot of the filesystem. *)
Abbreviation filesystem := (gmap path inode).

(** [fs::symlink_status]: the type of the entry itself. *)
Definition symlink_status (n : node) : result file_type :=
  match n with
  | RegularFile _ => Ok regular
  | Directory _ => Ok directory
  | Symlink _ => Ok symlink
  | Other k => Ok (special_type k)
  | Denied => Throw (filesystem_error permission_denied)
  end.

(** [fs::status]: the type of the entry after following symbolic links; a
    dangling link reports [not_found] without raising. *)
Fixpoint status (n : node) : result file_type :=
  match n with
  | Symlink (Some t) => status t
  | Symlink None => Ok not_found
  | _ => symlink_status n
  end.

(** [fs::file_size], which follows symbolic links as [status] does. *)
Fixpoint file_size (n : node) : result Z :=
  match n with
  | RegularFile size => Ok size
  | Directory _ => Throw (filesystem_error is_a_directory)
  | Symlink (Some t) => file_size t
  | Symlink None => Throw (filesystem_error no_such_file_or_directory)
  | Other _ => Throw (filesystem_error not_supported)
  | Denied => Throw (filesystem_error permission_denied)
  end.

(** [directory_entry::is_regular_file()], which is
    [fs::is_regular_file(status())].  The status is queried for every entry;
    an implementation may instead answer from the type the directory listing
    gave it, and then never raises for an entry that is not a link. *)
Definition is_regular_file (n : node) : result bool :=
  match status n with
  | Ok regular => Ok true
  | Ok _ => Ok false
  | Throw e => Throw e
  end.

(** Opening a directory for iteration; the path given to the iterator is
    resolved through symbolic links. *)
Fixpoint open_directory (n : node) : result (list (string * node)) :=
  match n with
  | Directory (Some l) => Ok l
  | Directory None => Throw (filesystem_error permission_denied)
  | Symlink (Some t) => open_directory t
  | Symlink None => Throw (filesystem_error no_such_file_or_directory)
  | RegularFile _ | Other _ => Throw (filesystem_error not_a_directory)
  | Denied => Throw (filesystem_error permission_denied)
  end.

(** [fs::last_write_time(p).time_since_epoch().count()] on a snapshot. *)
Definition last_write_time (disk : filesystem) (p : path) : result Z :=
  match disk !! p with
  | Some i => Ok (mtime i)
  | None => Throw (filesystem_error no_such_file_or_directory)
  end.

End fs.

(** ** [calculateDiskSpace] *)

(** One round of the range-for over [recursive_directory_iterator] at entry
    [e], with [totalSpaceUsed = total] on entry: the loop body, then the
    iterator's increment, which descends into [e] when [e] itself is a
    directory (the iterator is built with the default options, so a symbolic
    link to a directory is not entered) and runs the rounds of everything
    below it. *)
Fixpoint visit (e : fs.node) (total : Z) {struct e} : result Z :=
  match fs.is_regular_file e with
  | Throw x => Throw x
  | Ok b =>
      match (if b then
               match fs.file_size e with
               | Ok size => Ok (add_size_t total size)
               | Throw x => Throw x
               end
             else Ok total) with
      | Throw x => Throw x
      | Ok total' =>
          match e with
          | fs.Directory (Some l) =>
              (fix rounds (l : list (string * fs.node)) (t : Z) : result Z :=
                 match l with
                 | [] => Ok t
                 | (_, c) :: l' =>
                     match visit c t with
                     | Ok t' => rounds l' t'
                     | Throw x => Throw x
                     end
                 end) l total'
          | fs.Directory None => Throw (filesystem_error permission_denied)
          | _ => Ok total'
          end
      end
  end.

(** The rounds over a listing, in iteration order. *)
Fixpoint visit_all (l : list (string * fs.node)) (total : Z) : result Z :=
  match l with
  | [] => Ok total
  | (_, c) :: l' =>
      match visit c total with
      | Ok t' => visit_all l' t'
      | Throw x => Throw x
      end
  end.

(** [calculateDiskSpace] on the entry its argument names. *)
Definition calculateDiskSpace_node (n : fs.node) : result Z :=
  match fs.open_directory n with
  | Ok l => visit_all l 0
  | Throw x => Throw x
  end.

(** [calculateDiskSpace(directory)] on a snapshot of the filesystem. *)
Definition calculateDiskSpace (disk : fs.filesystem) (directory : fs.path)
  : result Z :=
  match disk !! directory with
  | Some i => calculateDiskSpace_node (fs.content i)
  | None => Throw (filesystem_error no_such_file_or_directory)
  end.

(** The value lines 38-39 give the local [lastModified] on a snapshot: the
    tick count of the last write time, converted to [size_t]. *)
Definition lastModified_at (disk : fs.filesystem) (directory : fs.path)
  : result Z :=
  match fs.last_write_time disk directory with
  | Ok count => Ok (to_size_t count)
  | Throw e => Throw e
  end.

(** ** The cache and the program state *)

Record DirectoryInfo := {
  diskSpaceUsage : Z;
  lastModified : Z
}.

(** What [std::cout] and [std::cerr] receive.  A [seconds] item is an elapsed
    wall-clock duration, whose value is not modelled. *)
Inductive out_item :=
| text (s : string)
| quoted_path (p : fs.path)
| number (n : Z)
| seconds.

(** The process state: the number of filesystem accesses made so far, the
    global [cache], the two output streams, and a record of every call of
    [calculateDiskSpace] (instrumentation only, the code keeps no such
    record).  [cacheMutex] is held for the whole of [getDiskSpaceUsage]; calls
    are modelled one at a time, in the order they take the lock. *)
Record state := {
  accesses : nat;
  cache : gmap fs.path DirectoryInfo;
  walks : list fs.path;
  cout : list out_item;
  cerr : list out_item
}.

Definition initial_state : state :=
  {| accesses := 0; cache := ∅; walks := []; cout := []; cerr := [] |}.

(** ** A state-and-exception monad *)

Definition M (A : Type) : Type := state → result A * state.

#[global] Instance M_ret : MRet M := λ A a s, (Ok a, s).

#[global] Instance M_bind : MBind M := λ A B f m s,
  match m s with
  | (Ok a, s') => f a s'
  | (Throw e, s') => (Throw e, s')
  end.

Definition throw {A} (e : exception) : M A := λ s, (Throw e, s).

Definition access (s : state) : state :=
  {| accesses := S (accesses s); cache := cache s; walks := walks s;
     cout := cout s; cerr := cerr s |}.

Definition record_walk (p : fs.path) (s : state) : state :=
  {| accesses := accesses s; cache := cache s; walks := walks s ++ [p];
     cout := cout s; cerr := cerr s |}.

Definition set_cache (c : gmap fs.path DirectoryInfo) (s : state) : state :=
  {| accesses := accesses s; cache := c; walks := walks s;
     cout := cout s; cerr := cerr s |}.

(** [cache.find(p)], with [None] for [cache.end()]. *)
Definition cache_find (p : fs.path) : M (option DirectoryInfo) :=
  λ s, (Ok (cache s !! p), s).

(** [cache[p] = info]. *)
Definition cache_assign (p : fs.path) (info : DirectoryInfo) : M unit :=
  λ s, (Ok tt, set_cache (<[p := info]> (cache s)) s).

Definition put_cout (items : list out_item) : M unit :=
  λ s, (Ok tt, {| accesses := accesses s; cache := cache s; walks := walks s;
                  cout := cout s ++ items; cerr := cerr s |}).

Definition put_cerr (items : list out_item) : M unit :=
  λ s, (Ok tt, {| accesses := accesses s; cache := cache s; walks := walks s;
                  cout := cout s; cerr := cerr s ++ items |}).

Section Program.

(** The filesystem as the process observes it: its [n]-th access sees
    [disk n]. *)
Variable disk : nat → fs.filesystem.

Definition last_write_time_count (p : fs.path) : M Z :=
  λ s, (fs.last_write_time (disk (accesses s)) p, access s).

(** A call of [calculateDiskSpace]; the walk sees one snapshot. *)
Definition calculateDiskSpace_call (p : fs.path) : M Z :=
  λ s, (calculateDiskSpace (disk (accesses s)) p,
        record_walk p (access s)).

(** ** [getDiskSpaceUsage] *)
Definition getDiskSpaceUsage (directory : fs.path) : M Z :=
  count ← last_write_time_count directory;
  let lastModified' := to_size_t count in
  it ← cache_find directory;
  let recompute : M Z :=
    diskSpaceUsage' ← calculateDiskSpace_call directory;
    cache_assign directory
      {| diskSpaceUsage := diskSpaceUsage';
         lastModified := lastModified' |};;
    mret diskSpaceUsage' in
  match it with
  | Some info =>
      if bool_decide (lastModified' ≤ lastModified info)
      then mret (diskSpaceUsage info)
      else recompute
  | None => recompute
  end.

(** A caller making the calls [ps] in order, going on after a failed call;
    the results in order and the final state. *)
Fixpoint calls (ps : list fs.path) (s : state) : list (result Z) * state :=
  match ps with
  | [] => ([], s)
  | p :: ps' =>
      let '(r, s') := getDiskSpaceUsage p s in
      let '(rs, s'') := calls ps' s' in
      (r :: rs, s'')
  end.

(** ** [main] *)

(** [std::stol], which the source takes from the standard library. *)
Variable stol : string → result Z.

Definition newline : string := String "010"%char EmptyString.

(** [main], for an invocation that has a program name: [argv0] is
    [argv[0]] and [args] is [argv[1]] to [argv[argc - 1]], so that
    [argc = 1 + length args]. *)
Definition main (argv0 : string) (args : list string) : M Z :=
  match args with
  | [] =>
      put_cerr [text "Usage: "; text argv0;
                text (" <directory_path>" +:+ newline)];;
      mret 1
  | directory :: rest =>
      sleepInSeconds ←
        match rest with
        | [secs] =>
            match stol secs with
            | Ok n => mret (to_size_t n)
            | Throw e => throw e
            end
        | _ => mret 0
        end;
      put_cout [text "Disk space usage for "; quoted_path directory;
                text ": "];;
      size1 ← getDiskSpaceUsage directory;
      put_cout [number size1; text (" bytes" +:+ newline)];;
      put_cout [text "Time elapsed for first call: "; seconds;
                text ("s" +:+ newline)];;
      (* std::this_thread::sleep_for(sleepInSeconds): time passes *)
      put_cout [text "Disk space usage for "; quoted_path directory;
                text " (after modification): "];;
      size2 ← getDiskSpaceUsage directory;
      put_cout [number size2; text (" bytes" +:+ newline)];;
      put_cout [text "Time elapsed for second call: "; seconds;
                text ("s" +:+ newline)];;
      mret 0
  end.

End Program.

(** ** What a walk counts *)

(** The size of the regular file an entry resolves to through symbolic
    links, 0 when it resolves to anything else. *)
Fixpoint resolved_size (e : fs.node) : Z :=
  match e with
  | fs.RegularFile size => size
  | fs.Symlink (Some t) => resolved_size t
  | _ => 0
  end.

(** The bytes under an entry as the walk counts them: a regular file counts
    its size, a symbolic link counts the regular file it resolves to and is
    not entered, a directory counts what its listing counts. *)
Fixpoint counted_bytes (e : fs.node) : Z :=
  match e with
  | fs.RegularFile size => size
  | fs.Directory (Some l) =>
      (fix sum (l : list (string * fs.node)) : Z :=
         match l with
         | [] => 0
         | (_, c) :: l' => counted_bytes c + sum l'
         end) l
  | fs.Symlink (Some t) => resolved_size t
  | _ => 0
  end.

Fixpoint counted_bytes_all (l : list (string * fs.node)) : Z :=
  match l with
  | [] => 0
  | (_, c) :: l' => counted_bytes c + counted_bytes_all l'
  end.

(** The bytes under an entry in the words of the specification: the sizes of
    the regular files reached by entering directories only, every other
    entry counting 0. *)
Fixpoint regular_bytes (e : fs.node) : Z :=
  match e with
  | fs.RegularFile size => size
  | fs.Directory (Some l) =>
      (fix sum (l : list (string * fs.node)) : Z :=
         match l with
         | [] => 0
         | (_, c) :: l' => regular_bytes c + sum l'
         end) l
  | _ => 0
  end.

Fixpoint regular_bytes_all (l : list (string * fs.node)) : Z :=
  match l with
  | [] => 0
  | (_, c) :: l' => regular_bytes c + regular_bytes_all l'
  end.

(** An entry the walk gets through: its status can be queried, and when it
    is a directory it can be opened and so can everything below it. *)
Fixpoint readable (e : fs.node) : bool :=
  match e with
  | fs.RegularFile _ => true
  | fs.Directory (Some l) =>
      (fix all (l : list (string * fs.node)) : bool :=
         match l with
         | [] => true
         | (_, c) :: l' => readable c && all l'
         end) l
  | fs.Directory None => false
  | fs.Symlink _ => is_Ok (fs.status e)
  | fs.Other _ => true
  | fs.Denied => false
  end.

Fixpoint readable_all (l : list (string * fs.node)) : bool :=
  match l with
  | [] => true
  | (_, c) :: l' => readable c && readable_all l'
  end.

(** No symbolic link anywhere among the entries the walk meets. *)
Fixpoint link_free (e : fs.node) : bool :=
  match e with
  | fs.Directory (Some l) =>
      (fix all (l : list (string * fs.node)) : bool :=
         match l with
         | [] => true
         | (_, c) :: l' => link_free c && all l'
         end) l
  | fs.Symlink _ => false
  | _ => true
  end.

Fixpoint link_free_all (l : list (string * fs.node)) : bool :=
  match l with
  | [] => true
  | (_, c) :: l' => link_free c && link_free_all l'
  end.

(** ** Example trees *)

(** A directory holding one symbolic link to a regular file of 7 bytes. *)
Definition linked_tree : fs.node :=
  fs.Directory (Some [("link", fs.Symlink (Some (fs.RegularFile 7)))]).

(** Files of 100, 250 and 0 bytes and a subdirectory holding a file of 50
    bytes, under any names. *)
Definition scenario_tree (a b c sub d : string) : fs.node :=
  fs.Directory (Some [(a, fs.RegularFile 100);
                      (b, fs.RegularFile 250);
                      (c, fs.RegularFile 0);
                      (sub, fs.Directory (Some [(d, fs.RegularFile 50)]))]).

(** Entries of every kind: a file, a link to a file, a subdirectory, a link
    to a directory that cannot be opened, a pipe and a dangling link. *)
Definition mixed_listing : list (string * fs.node) :=
  [("f", fs.RegularFile 5);
   ("l", fs.Symlink (Some (fs.RegularFile 7)));
   ("d", fs.Directory (Some [("g", fs.RegularFile 11)]));
   ("s", fs.Symlink (Some (fs.Directory None)));
   ("p", fs.Other fs.named_pipe);
   ("x", fs.Symlink None)].

(** The state after the two filesystem accesses of a call that walks [p],
    before the cache is written. *)
Definition walked (p : fs.path) (s : state) : state :=
  record_walk p (access (access s)).

(** ** Example filesystems and states *)

Definition scenario_inode (t : Z) : fs.inode :=
  {| fs.mtime := t; fs.content := scenario_tree "a" "b" "c" "sub" "d" |}.

(** One directory, never touched. *)
Definition steady_snapshot : fs.filesystem := {["dir" := scenario_inode 5]}.

Definition steady_disk : nat → fs.filesystem := λ _, steady_snapshot.

(** The directory is written to after the first access of the process. *)
Definition touched_disk : nat → fs.filesystem :=
  λ n, {["dir" := scenario_inode (if Nat.eqb n 0 then 5 else 9)]}.

(** The directory has been written to and can no longer be opened. *)
Definition closed_disk : nat → fs.filesystem :=
  λ _, {["dir" := {| fs.mtime := 9; fs.content := fs.Directory None |}]}.

(** Nothing exists. *)
Definition empty_disk : nat → fs.filesystem := λ _, ∅.

(** A state whose cache holds one entry, for ["dir"]. *)
Definition cached (info : DirectoryInfo) : state :=
  set_cache {["dir" := info]} initial_state.

(** What a call of [getDiskSpaceUsage] returns when every access sees the
    same snapshot [d], as a function of the entry the cache holds. *)
Definition outcome (d : fs.filesystem) (p : fs.path)
    (entry : option DirectoryInfo) : result Z :=
  match fs.last_write_time d p with
  | Throw e => Throw e
  | Ok count =>
      match entry with
      | Some info =>
          if bool_decide (to_size_t count ≤ lastModified info)
          then Ok (diskSpaceUsage info)
          else calculateDiskSpace d p
      | None => calculateDiskSpace d p
      end
  end.

(** ** More of the model's vocabulary *)

(** The values of a signed 64-bit tick count. *)
Definition in_int64 (z : Z) : Prop := - 2 ^ 63 ≤ z < 2 ^ 63.

(** A cache entry whose two fields are [size_t] values. *)
Definition entry_in_range (info : DirectoryInfo) : Prop :=
  in_size_t (diskSpaceUsage info) ∧ in_size_t (lastModified info).

(** The state after [items] went to [std::cout]. *)
Definition wrote_cout (items : list out_item) (s : state) : state :=
  (put_cout items s).2.

(** What [main] sends to [std::cout] before its first call. *)
Definition first_heading (directory : fs.path) : list out_item :=
  [text "Disk space usage for "; quoted_path directory; text ": "].

(** What [main] sends to [std::cout] between the result of its first call
    and its second call. *)
Definition first_report (directory : fs.path) (size1 : Z) : list out_item :=
  [number size1; text (" bytes" +:+ newline);
   text "Time elapsed for first call: "; seconds; text ("s" +:+ newline);
   text "Disk space usage for "; quoted_path directory;
   text " (after modification): "].

(** What [main] sends to [std::cout] after its second call. *)
Definition second_report (size2 : Z) : list out_item :=
  [number size2; text (" bytes" +:+ newline);
   text "Time elapsed for second call: "; seconds; text ("s" +:+ newline)].

(** Two files of 2^63 bytes each. *)
Definition huge_listing : list (string * fs.node) :=
  [("a", fs.RegularFile (2 ^ 63)); ("b", fs.RegularFile (2 ^ 63))].

(** The path names a regular file. *)
Definition file_disk : nat → fs.filesystem :=
  λ _, {["dir" := {| fs.mtime := 5; fs.content := fs.RegularFile 12 |}]}.

(** A file below the directory grows after the second access of the
    process, and the directory's own last write time stays what it was. *)
Definition silent_disk : nat → fs.filesystem :=
  λ n, {["dir" :=
          {| fs.mtime := 5;
             fs.content :=
               fs.Directory
                 (Some [("sub",
                         fs.Directory
                           (Some [("x", fs.RegularFile
                                          (if Nat.ltb n 2 then 50
                                           else 9000))]))]) |}]}.

(** The directory was last written three ticks after the clock's epoch. *)
Definition epoch_disk : nat → fs.filesystem :=
  λ _, {["dir" := scenario_inode 3]}.

(** Some directory that cannot be opened lies below the entry, reached
    through directories only. *)
Fixpoint closed_below (e : fs.node) : bool :=
  match e with
  | fs.Directory None => true
  | fs.Directory (Some l) =>
      (fix any (l : list (string * fs.node)) : bool :=
         match l with
         | [] => false
         | (_, c) :: l' => closed_below c || any l'
         end) l
  | _ => false
  end.

Fixpoint closed_below_all (l : list (string * fs.node)) : bool :=
  match l with
  | [] => false
  | (_, c) :: l' => closed_below c || closed_below_all l'
  end.

(** A file, then a directory with a closed directory two levels down, then
    another file. *)
Definition locked_listing : list (string * fs.node) :=
  [("f", fs.RegularFile 5);
   ("d", fs.Directory
           (Some [("g", fs.RegularFile 11);
                  ("deep", fs.Directory
                             (Some [("locked", fs.Directory None)]))]));
   ("h", fs.RegularFile 3)].

(** The names a path is made of: the pieces between its separators, empty
    pieces dropped.  Two paths the code's map takes for one key have the
    same names. *)
Fixpoint names_from (name : string) (p : string) : list string :=
  match p with
  | EmptyString => if decide (name = "") then [] else [name]
  | String c p' =>
      if Ascii.eqb c "/"%char
      then (if decide (name = "") then names_from "" p'
            else name :: names_from "" p')
      else names_from (name +:+ String c EmptyString) p'
  end.

Definition path_names (p : fs.path) : list string := names_from "" p.

(** Three directories, one of them below another. *)
Definition family_snapshot : fs.filesystem :=
  {["dir" := {| fs.mtime := 5;
                fs.content :=
                  fs.Directory
                    (Some [("a", fs.RegularFile 100);
                           ("sub", fs.Directory
                                     (Some [("x", fs.RegularFile 50)]))]) |};
    "dir/sub" := {| fs.mtime := 6;
                    fs.content :=
                      fs.Directory (Some [("x", fs.RegularFile 50)]) |};
    "other" := {| fs.mtime := 7;
                  fs.content :=
                    fs.Directory (Some [("y", fs.RegularFile 30)]) |}]}.

Definition family_disk : nat → fs.filesystem := λ _, family_snapshot.

(** The directory was last written seven ticks before the clock's epoch. *)
Definition before_epoch_disk : nat → fs.filesystem :=
  λ _, {["dir" := scenario_inode (-7)]}.

(** The directory's last write time is seven ticks before the epoch at the
    first access of the process and three ticks after it from then on; a
    file of 1000 bytes appears in it after the second access. *)
Definition crossing_disk : nat → fs.filesystem :=
  λ n, {["dir" :=
          {| fs.mtime := if Nat.eqb n 0 then -7 else 3;
             fs.content :=
               if Nat.ltb n 2 then scenario_tree "a" "b" "c" "sub" "d"
               else fs.Directory
                      (Some [("a", fs.RegularFile 100);
                             ("b", fs.RegularFile 250);
                             ("c", fs.RegularFile 0);
                             ("sub", fs.Directory
                                       (Some [("d", fs.RegularFile 50)]));
                             ("new", fs.RegularFile 1000)]) |}]}.

(** * Properties *)

(** ** [size_t] arithmetic *)

Lemma to_size_t_range z : in_size_t (to_size_t z).
Proof. apply Z.mod_pos_bound. reflexivity. Qed.

Lemma to_size_t_id z : in_size_t z → to_size_t z = z.
Proof. intros H. apply Z.mod_small. exact H. Qed.

Lemma to_size_t_add_l a b : to_size_t (to_size_t a + b) = to_size_t (a + b).
Proof. unfold to_size_t. apply Zplus_mod_idemp_l. Qed.

(** Same-sign tick counts keep their order when stored in a [size_t]. *)
Lemma to_size_t_le_negative a b :
  - size_t_modulus ≤ a → a ≤ b → b < 0 → to_size_t a ≤ to_size_t b.
Proof.
  intros Ha Hab Hb. unfold to_size_t.
  rewrite <- (Z_mod_plus_full a 1), <- (Z_mod_plus_full b 1).
  rewrite !Z.mod_small; unfold size_t_modulus in *; lia.
Qed.

(** Across the epoch of the clock it does not: the count 0 is stored below
    the count -1. *)
Lemma to_size_t_epoch : to_size_t 0 < to_size_t (-1).
Proof. reflexivity. Qed.

(** ** Induction over directory entries *)

Lemma node_induction (P : fs.node → Prop) :
  (∀ size, P (fs.RegularFile size)) →
  P (fs.Directory None) →
  (∀ l, Forall (λ x, P x.2) l → P (fs.Directory (Some l))) →
  P (fs.Symlink None) →
  (∀ t, P t → P (fs.Symlink (Some t))) →
  (∀ k, P (fs.Other k)) →
  P fs.Denied →
  ∀ e, P e.
Proof.
  intros Hfile Hclosed Hdir Hdangling Hlink Hother Hdenied.
  fix IH 1. intros [size | [l |] | [t |] | k |].
  - apply Hfile.
  - apply Hdir. induction l as [| [name c] l IHl]; constructor.
    + apply IH.
    + exact IHl.
  - apply Hclosed.
  - apply Hlink, IH.
  - apply Hdangling.
  - apply Hother.
  - apply Hdenied.
Qed.

(** ** The walk *)

Lemma visit_directory l total :
  visit (fs.Directory (Some l)) total = visit_all l total.
Proof.
  cbn. revert total. induction l as [| [name c] l IHl]; intros total.
  - reflexivity.
  - cbn. destruct (visit c total); [apply IHl | reflexivity].
Qed.

Lemma counted_bytes_directory l :
  counted_bytes (fs.Directory (Some l)) = counted_bytes_all l.
Proof.
  cbn. induction l as [| [name c] l IHl]; [reflexivity |].
  cbn. now rewrite IHl.
Qed.

Lemma regular_bytes_directory l :
  regular_bytes (fs.Directory (Some l)) = regular_bytes_all l.
Proof.
  cbn. induction l as [| [name c] l IHl]; [reflexivity |].
  cbn. now rewrite IHl.
Qed.

Lemma readable_directory l :
  readable (fs.Directory (Some l)) = readable_all l.
Proof.
  cbn. induction l as [| [name c] l IHl]; [reflexivity |].
  cbn. now rewrite IHl.
Qed.

Lemma link_free_directory l :
  link_free (fs.Directory (Some l)) = link_free_all l.
Proof.
  cbn. induction l as [| [name c] l IHl]; [reflexivity |].
  cbn. now rewrite IHl.
Qed.

(** What a link that can be resolved contributes to the loop body. *)
Lemma resolved_body t :
  is_Ok (fs.status t) = true →
  (fs.status t = Ok fs.regular ∧ fs.file_size t = Ok (resolved_size t))
  ∨ (∃ ty, fs.status t = Ok ty ∧ ty ≠ fs.regular ∧ resolved_size t = 0).
Proof.
  induction t as [size | | l _ | | t IHt | k |] using node_induction;
    cbn; intros Hok; try discriminate.
  - left. split; reflexivity.
  - right. exists fs.directory. repeat split; discriminate.
  - right. exists fs.directory. repeat split; discriminate.
  - right. exists fs.not_found. repeat split; discriminate.
  - apply IHt, Hok.
  - right. exists (fs.special_type k). repeat split. destruct k; discriminate.
Qed.

Lemma visit_readable e :
  ∀ total, readable e = true → in_size_t total →
  visit e total = Ok (to_size_t (total + counted_bytes e)).
Proof.
  induction e as [size | | l IHl | | t _ | k |] using node_induction;
    intros total Hr Htotal; try discriminate.
  - reflexivity.
  - rewrite visit_directory, counted_bytes_directory.
    rewrite readable_directory in Hr.
    revert total Htotal Hr.
    induction IHl as [| [name c] l Hc _ IH]; intros total Htotal Hr.
    + cbn. now rewrite Z.add_0_r, to_size_t_id.
    + cbn in Hr, Hc. apply andb_prop in Hr as [Hrc Hrl].
      cbn. rewrite (Hc total Hrc Htotal).
      rewrite (IH _ (to_size_t_range _) Hrl), to_size_t_add_l.
      f_equal. f_equal. lia.
  - cbn. now rewrite Z.add_0_r, to_size_t_id.
  - cbn in Hr. destruct (resolved_body t Hr) as [[Hs Hf] | (ty & Hs & Hty & H0)].
    + cbn. unfold fs.is_regular_file. cbn. rewrite Hs, Hf. reflexivity.
    + cbn. unfold fs.is_regular_file. cbn. rewrite Hs, H0.
      rewrite Z.add_0_r, to_size_t_id by exact Htotal.
      destruct ty; congruence.
  - cbn. rewrite Z.add_0_r, to_size_t_id by exact Htotal.
    destruct k; reflexivity.
Qed.

Lemma visit_all_readable l :
  ∀ total, readable_all l = true → in_size_t total →
  visit_all l total = Ok (to_size_t (total + counted_bytes_all l)).
Proof.
  intros total Hr Htotal.
  rewrite <- visit_directory, <- counted_bytes_directory.
  apply visit_readable; [now rewrite readable_directory | exact Htotal].
Qed.

(** Without symbolic links the walk counts exactly the regular files. *)
Lemma counted_bytes_link_free e :
  link_free e = true → counted_bytes e = regular_bytes e.
Proof.
  induction e as [size | | l IHl | | t _ | k |] using node_induction;
    intros Hfree; try reflexivity; try discriminate.
  rewrite counted_bytes_directory, regular_bytes_directory.
  rewrite link_free_directory in Hfree.
  induction IHl as [| [name c] l Hc _ IH]; [reflexivity |].
  cbn in Hfree, Hc. apply andb_prop in Hfree as [Hfc Hfl].
  cbn. now rewrite (Hc Hfc), (IH Hfl).
Qed.

Lemma calculateDiskSpace_node_readable n l :
  fs.open_directory n = Ok l → readable_all l = true →
  calculateDiskSpace_node n = Ok (to_size_t (counted_bytes_all l)).
Proof.
  intros Hopen Hr. unfold calculateDiskSpace_node. rewrite Hopen.
  apply (visit_all_readable l 0 Hr). unfold in_size_t, size_t_modulus. lia.
Qed.

(** On a readable tree without symbolic links the walk returns the sum of
    the sizes of the regular files, reduced to a [size_t]. *)
Lemma calculateDiskSpace_node_link_free n l :
  fs.open_directory n = Ok l → readable_all l = true →
  link_free_all l = true →
  calculateDiskSpace_node n = Ok (to_size_t (regular_bytes_all l)).
Proof.
  intros Hopen Hr Hfree.
  rewrite (calculateDiskSpace_node_readable n l Hopen Hr).
  rewrite <- counted_bytes_directory, <- regular_bytes_directory.
  rewrite counted_bytes_link_free; [reflexivity |].
  now rewrite link_free_directory.
Qed.

(** C4, as the code has it: on a directory that can be opened and whose
    tree is readable, with a total that fits a [size_t],
    [calculateDiskSpace] returns the sum of the sizes of the regular files
    below it plus, for each symbolic link met that resolves to a regular
    file, the size of that file; directories, devices, dangling links and
    links to anything else count 0, and only directories themselves are
    entered. *)
Theorem calculateDiskSpace_counts_resolved_files n l :
  fs.open_directory n = Ok l →
  readable_all l = true →
  in_size_t (counted_bytes_all l) →
  calculateDiskSpace_node n = Ok (counted_bytes_all l).
Proof.
  intros Hopen Hr Hfit.
  rewrite (calculateDiskSpace_node_readable n l Hopen Hr).
  now rewrite to_size_t_id.
Qed.

Lemma calculateDiskSpace_counts_resolved_files_witness :
  calculateDiskSpace_node (fs.Directory (Some mixed_listing)) = Ok 23.
Proof.
  apply (calculateDiskSpace_counts_resolved_files
           (fs.Directory (Some mixed_listing)) mixed_listing).
  - reflexivity.
  - reflexivity.
  - unfold in_size_t, size_t_modulus. cbn. lia.
Defined.

(** C4 as stated fails: a readable directory whose only entry is a symbolic
    link to a regular file of 7 bytes has no regular file below it, yet the
    walk returns 7. *)
Lemma calculateDiskSpace_counts_link_target :
  readable linked_tree = true
  ∧ regular_bytes linked_tree = 0
  ∧ calculateDiskSpace_node linked_tree = Ok 7
  ∧ calculateDiskSpace_node linked_tree ≠ Ok (regular_bytes linked_tree).
Proof. repeat split. discriminate. Qed.

Lemma calculateDiskSpace_scenario a b c sub d :
  calculateDiskSpace_node (scenario_tree a b c sub d) = Ok 400.
Proof. reflexivity. Qed.

(** ** One call of [getDiskSpaceUsage], path by path *)

Section Calls.

Variable disk : nat → fs.filesystem.

Lemma getDiskSpaceUsage_no_mtime p s e :
  fs.last_write_time (disk (accesses s)) p = Throw e →
  getDiskSpaceUsage disk p s = (Throw e, access s).
Proof.
  intros Hm. unfold getDiskSpaceUsage, mbind, M_bind, last_write_time_count.
  now rewrite Hm.
Qed.

Lemma getDiskSpaceUsage_fast p s count info :
  fs.last_write_time (disk (accesses s)) p = Ok count →
  cache s !! p = Some info →
  to_size_t count ≤ lastModified info →
  getDiskSpaceUsage disk p s = (Ok (diskSpaceUsage info), access s).
Proof.
  intros Hm Hc Hle.
  unfold getDiskSpaceUsage, mbind, M_bind, last_write_time_count, cache_find.
  rewrite Hm. cbn. rewrite Hc.
  now rewrite bool_decide_eq_true_2.
Qed.

Lemma getDiskSpaceUsage_walk p s count :
  fs.last_write_time (disk (accesses s)) p = Ok count →
  (cache s !! p = None
   ∨ ∃ info, cache s !! p = Some info
             ∧ lastModified info < to_size_t count) →
  getDiskSpaceUsage disk p s =
    match calculateDiskSpace (disk (S (accesses s))) p with
    | Ok size =>
        (Ok size,
         set_cache (<[p := {| diskSpaceUsage := size;
                              lastModified := to_size_t count |}]> (cache s))
                   (walked p s))
    | Throw e => (Throw e, walked p s)
    end.
Proof.
  intros Hm Hc.
  unfold getDiskSpaceUsage, mbind, M_bind, last_write_time_count, cache_find.
  rewrite Hm. cbn.
  assert (Hwalk : ∀ k : M Z,
    match cache s !! p with
    | Some info =>
        if bool_decide (to_size_t count ≤ lastModified info)
        then mret (diskSpaceUsage info) else k
    | None => k
    end = k).
  { intros k. destruct Hc as [-> | (info & -> & Hlt)]; [reflexivity |].
    rewrite bool_decide_eq_false_2; [reflexivity | lia]. }
  rewrite Hwalk. unfold calculateDiskSpace_call. cbn.
  destruct (calculateDiskSpace _ p); reflexivity.
Qed.

Lemma lastModified_at_Ok d p now :
  lastModified_at d p = Ok now →
  ∃ count, fs.last_write_time d p = Ok count ∧ now = to_size_t count.
Proof.
  unfold lastModified_at. destruct (fs.last_write_time d p) as [count | e];
    intros H; [| discriminate].
  exists count. split; [reflexivity | congruence].
Qed.

Lemma lastModified_at_Throw d p e :
  lastModified_at d p = Throw e → fs.last_write_time d p = Throw e.
Proof.
  unfold lastModified_at. destruct (fs.last_write_time d p); congruence.
Qed.

Lemma walks_grow (l : list fs.path) p : l ++ [p] ≠ l.
Proof.
  intros H. apply (f_equal length) in H.
  rewrite length_app in H. cbn in H. lia.
Qed.

(** On the stored values: when the path has a cache entry and the [size_t]
    value of the timestamp read by the call is at most the entry's (equality
    included), the call returns the cached size, the cache is what it was and
    no walk took place; a walk takes place exactly when the value read is
    strictly larger. *)
Theorem getDiskSpaceUsage_returns_fresh_entry p s info now :
  cache s !! p = Some info →
  lastModified_at (disk (accesses s)) p = Ok now →
  (now ≤ lastModified info →
     (getDiskSpaceUsage disk p s).1 = Ok (diskSpaceUsage info)
     ∧ cache (getDiskSpaceUsage disk p s).2 = cache s
     ∧ walks (getDiskSpaceUsage disk p s).2 = walks s)
  ∧ (walks (getDiskSpaceUsage disk p s).2 ≠ walks s
     ↔ lastModified info < now).
Proof.
  intros Hc Hm. apply lastModified_at_Ok in Hm as (count & Hm & ->).
  destruct (Z_le_gt_dec (to_size_t count) (lastModified info)) as [Hle | Hgt].
  - rewrite (getDiskSpaceUsage_fast p s count info Hm Hc Hle). cbn.
    split; [auto |]. split; [congruence | lia].
  - split; [lia |].
    rewrite (getDiskSpaceUsage_walk p s count Hm) by (right; exists info; split; [exact Hc | lia]).
    split; [lia |]. intros _.
    destruct (calculateDiskSpace _ p); cbn; apply walks_grow.
Qed.

(** On the stored values: when the path has no cache entry, or has one
    whose [lastModified] is strictly below the [size_t] value read at the
    start of the call, and the walk yields a size, the call walks the path
    once, returns that size, and leaves the cache with the entry of the path
    set to that size and the value read at the start. *)
Theorem getDiskSpaceUsage_recomputes_and_stores p s now size :
  lastModified_at (disk (accesses s)) p = Ok now →
  (cache s !! p = None
   ∨ ∃ info, cache s !! p = Some info ∧ lastModified info < now) →
  calculateDiskSpace (disk (S (accesses s))) p = Ok size →
  (getDiskSpaceUsage disk p s).1 = Ok size
  ∧ cache (getDiskSpaceUsage disk p s).2 =
      <[p := {| diskSpaceUsage := size; lastModified := now |}]> (cache s)
  ∧ walks (getDiskSpaceUsage disk p s).2 = walks s ++ [p].
Proof.
  intros Hm Hc Hw. apply lastModified_at_Ok in Hm as (count & Hm & ->).
  rewrite (getDiskSpaceUsage_walk p s count Hm Hc), Hw. auto.
Qed.

(** C3: when the walk of a call raises, the call raises the same
    exception and the cache, the entry of the path included, is what it
    was before the call. *)
Theorem getDiskSpaceUsage_failed_walk_keeps_cache p s now e :
  lastModified_at (disk (accesses s)) p = Ok now →
  (cache s !! p = None
   ∨ ∃ info, cache s !! p = Some info ∧ lastModified info < now) →
  calculateDiskSpace (disk (S (accesses s))) p = Throw e →
  (getDiskSpaceUsage disk p s).1 = Throw e
  ∧ cache (getDiskSpaceUsage disk p s).2 = cache s
  ∧ cache (getDiskSpaceUsage disk p s).2 !! p = cache s !! p.
Proof.
  intros Hm Hc Hw. apply lastModified_at_Ok in Hm as (count & Hm & ->).
  rewrite (getDiskSpaceUsage_walk p s count Hm Hc), Hw. auto.
Qed.

(** C5: when the timestamp of the path cannot be read, the call raises
    that error whatever the cache holds for the path: no cached size is
    returned, no walk takes place and the cache is not touched. *)
Theorem getDiskSpaceUsage_unreadable_timestamp_raises p s e :
  lastModified_at (disk (accesses s)) p = Throw e →
  (getDiskSpaceUsage disk p s).1 = Throw e
  ∧ cache (getDiskSpaceUsage disk p s).2 = cache s
  ∧ walks (getDiskSpaceUsage disk p s).2 = walks s.
Proof.
  intros Hm. apply lastModified_at_Throw in Hm.
  rewrite (getDiskSpaceUsage_no_mtime p s e Hm). auto.
Qed.

(** A path missing from the snapshot is such a path. *)
Lemma getDiskSpaceUsage_missing_path p s :
  disk (accesses s) !! p = None →
  (getDiskSpaceUsage disk p s).1 =
    Throw (filesystem_error no_such_file_or_directory).
Proof.
  intros Hp. rewrite (getDiskSpaceUsage_no_mtime p s
                        (filesystem_error no_such_file_or_directory)).
  - reflexivity.
  - unfold fs.last_write_time. now rewrite Hp.
Qed.

(** The four ways a call can go. *)
Lemma getDiskSpaceUsage_cases p s :
  (∃ e, fs.last_write_time (disk (accesses s)) p = Throw e
        ∧ getDiskSpaceUsage disk p s = (Throw e, access s))
  ∨ (∃ count info,
        fs.last_write_time (disk (accesses s)) p = Ok count
        ∧ cache s !! p = Some info
        ∧ to_size_t count ≤ lastModified info
        ∧ getDiskSpaceUsage disk p s = (Ok (diskSpaceUsage info), access s))
  ∨ (∃ count e,
        fs.last_write_time (disk (accesses s)) p = Ok count
        ∧ calculateDiskSpace (disk (S (accesses s))) p = Throw e
        ∧ getDiskSpaceUsage disk p s = (Throw e, walked p s))
  ∨ (∃ count size,
        fs.last_write_time (disk (accesses s)) p = Ok count
        ∧ calculateDiskSpace (disk (S (accesses s))) p = Ok size
        ∧ getDiskSpaceUsage disk p s =
            (Ok size,
             set_cache (<[p := {| diskSpaceUsage := size;
                                  lastModified := to_size_t count |}]>
                          (cache s))
                       (walked p s))).
Proof.
  destruct (fs.last_write_time (disk (accesses s)) p) as [count | e] eqn:Hm.
  2: { left. exists e. split; [reflexivity |].
       now apply getDiskSpaceUsage_no_mtime. }
  right.
  assert (Hdec : (∃ info, cache s !! p = Some info
                          ∧ to_size_t count ≤ lastModified info)
                 ∨ (cache s !! p = None
                    ∨ ∃ info, cache s !! p = Some info
                              ∧ lastModified info < to_size_t count)).
  { destruct (cache s !! p) as [info |]; [| right; left; reflexivity].
    destruct (Z_le_gt_dec (to_size_t count) (lastModified info)).
    - left. eauto.
    - right. right. exists info. split; [reflexivity | lia]. }
  destruct Hdec as [(info & Hc & Hle) | Hc].
  - left. exists count, info. repeat split; try assumption.
    now apply getDiskSpaceUsage_fast with count.
  - right. pose proof (getDiskSpaceUsage_walk p s count Hm Hc) as Hw.
    destruct (calculateDiskSpace (disk (S (accesses s))) p) as [size | e].
    + right. exists count, size. auto.
    + left. exists count, e. auto.
Qed.

(** C9: after a call that returns a size, the cache has an entry for the
    path and the size in it is the size returned. *)
Theorem getDiskSpaceUsage_result_is_cached p s size :
  (getDiskSpaceUsage disk p s).1 = Ok size →
  ∃ info, cache (getDiskSpaceUsage disk p s).2 !! p = Some info
          ∧ diskSpaceUsage info = size.
Proof.
  destruct (getDiskSpaceUsage_cases p s)
    as [(e & _ & ->) | [(count & info & _ & Hc & _ & ->)
       | [(count & e & _ & _ & ->) | (count & size' & _ & _ & ->)]]];
    cbn; intros Hr; try discriminate.
  - exists info. split; [exact Hc | congruence].
  - eexists. rewrite lookup_insert_eq. split; [reflexivity |].
    cbn. congruence.
Qed.

(** On the stored values: a call that walks stores the [size_t] value it
    read before the walk, whatever the filesystem shows during and after the
    walk; so when the walk already sees a larger value, and the next call
    reads that one or a larger one, the next call walks again. *)
Theorem getDiskSpaceUsage_stores_timestamp_read_first
    p s now size during after :
  lastModified_at (disk (accesses s)) p = Ok now →
  (cache s !! p = None
   ∨ ∃ info, cache s !! p = Some info ∧ lastModified info < now) →
  calculateDiskSpace (disk (S (accesses s))) p = Ok size →
  lastModified_at (disk (S (accesses s))) p = Ok during →
  now < during →
  lastModified_at (disk (accesses (getDiskSpaceUsage disk p s).2)) p
    = Ok after →
  during ≤ after →
  cache (getDiskSpaceUsage disk p s).2 !! p =
    Some {| diskSpaceUsage := size; lastModified := now |}
  ∧ walks (getDiskSpaceUsage disk p (getDiskSpaceUsage disk p s).2).2 =
      walks (getDiskSpaceUsage disk p s).2 ++ [p].
Proof.
  intros Hm Hc Hw Hduring Hlt Hafter Hle.
  apply lastModified_at_Ok in Hm as (count & Hm & ->).
  apply lastModified_at_Ok in Hafter as (count' & Hafter & ->).
  assert (Hentry : cache (getDiskSpaceUsage disk p s).2 !! p =
    Some {| diskSpaceUsage := size; lastModified := to_size_t count |}).
  { rewrite (getDiskSpaceUsage_walk p s count Hm Hc), Hw. cbn.
    apply lookup_insert_eq. }
  split; [exact Hentry |].
  set (s' := (getDiskSpaceUsage disk p s).2) in *.
  rewrite (getDiskSpaceUsage_walk p s' count' Hafter).
  - destruct (calculateDiskSpace (disk (S (accesses s'))) p); reflexivity.
  - right. eexists. split; [exact Hentry |]. cbn. lia.
Qed.

End Calls.

(** ** Calls on a filesystem that does not change *)

Section Unchanged.

Variable d : fs.filesystem.

Lemma getDiskSpaceUsage_outcome p s :
  (getDiskSpaceUsage (λ _, d) p s).1 = outcome d p (cache s !! p).
Proof.
  unfold outcome.
  destruct (getDiskSpaceUsage_cases (λ _, d) p s)
    as [(e & Hm & ->) | [(count & info & Hm & Hc & Hle & ->)
       | [(count & e & Hm & Hw & Hr) | (count & size & Hm & Hw & Hr)]]];
    rewrite Hm; cbn.
  - reflexivity.
  - rewrite Hc. now rewrite bool_decide_eq_true_2.
  - rewrite Hr. cbn.
    destruct (cache s !! p) as [info |] eqn:Hc; [| now rewrite Hw].
    case_bool_decide as Hle; [| now rewrite Hw].
    rewrite (getDiskSpaceUsage_fast _ p s count info Hm Hc Hle) in Hr.
    discriminate.
  - rewrite Hr. cbn.
    destruct (cache s !! p) as [info |] eqn:Hc; [| now rewrite Hw].
    case_bool_decide as Hle; [| now rewrite Hw].
    rewrite (getDiskSpaceUsage_fast _ p s count info Hm Hc Hle) in Hr.
    congruence.
Qed.

Lemma getDiskSpaceUsage_other_entry (disk : nat → fs.filesystem) p q s :
  p ≠ q →
  cache (getDiskSpaceUsage disk q s).2 !! p = cache s !! p.
Proof.
  intros Hne.
  destruct (getDiskSpaceUsage_cases disk q s)
    as [(e & _ & ->) | [(count & info & _ & _ & _ & ->)
       | [(count & e & _ & _ & ->) | (count & size & _ & _ & ->)]]];
    cbn; try reflexivity.
  now apply lookup_insert_ne.
Qed.

(** A call for [p] leaves the cache returning for [p] what it returned. *)
Lemma outcome_after_same_path p s :
  outcome d p (cache (getDiskSpaceUsage (λ _, d) p s).2 !! p)
  = outcome d p (cache s !! p).
Proof.
  pose proof (getDiskSpaceUsage_outcome p s) as Hout.
  destruct (getDiskSpaceUsage_cases (λ _, d) p s)
    as [(e & _ & Hr) | [(count & info & _ & _ & _ & Hr)
       | [(count & e & _ & _ & Hr) | (count & size & Hm & _ & Hr)]]];
    rewrite Hr in *; cbn in *; try reflexivity.
  rewrite lookup_insert_eq, <- Hout. unfold outcome. rewrite Hm. cbn.
  now rewrite bool_decide_eq_true_2.
Qed.

Lemma outcome_after_call p q s :
  outcome d p (cache (getDiskSpaceUsage (λ _, d) q s).2 !! p)
  = outcome d p (cache s !! p).
Proof.
  destruct (decide (p = q)) as [-> | Hne].
  - apply outcome_after_same_path.
  - now rewrite getDiskSpaceUsage_other_entry.
Qed.

(** On an unchanging filesystem every call in a run returns what the
    first call for its path would have returned at the start. *)
Lemma calls_outcome ps :
  ∀ s i p, ps !! i = Some p →
  (calls (λ _, d) ps s).1 !! i = Some (outcome d p (cache s !! p)).
Proof.
  induction ps as [| q ps IH]; intros s i p Hi; [discriminate |].
  cbn. pose proof (getDiskSpaceUsage_outcome q s) as Hq.
  pose proof (outcome_after_call p q s) as Hp.
  destruct (getDiskSpaceUsage (λ _, d) q s) as [r s'].
  specialize (IH s'). destruct (calls (λ _, d) ps s') as [rs s''].
  destruct i as [| i]; cbn in *.
  - injection Hi as ->. now rewrite Hq.
  - rewrite <- Hp. now apply IH.
Qed.

(** C6: in a run of calls on a filesystem that does not change, with calls
    for other paths in between or not, any two calls for the same path
    return the same result. *)
Theorem calls_same_path_same_result ps s i j p :
  ps !! i = Some p →
  ps !! j = Some p →
  ∃ r, (calls (λ _, d) ps s).1 !! i = Some r
       ∧ (calls (λ _, d) ps s).1 !! j = Some r.
Proof.
  intros Hi Hj. exists (outcome d p (cache s !! p)).
  split; now apply calls_outcome.
Qed.

End Unchanged.

(** C7: asked, with nothing cached, for a directory that holds regular files
    of 100, 250 and 0 bytes and a subdirectory holding a regular file of 50
    bytes, [getDiskSpaceUsage] returns 400. *)
Theorem getDiskSpaceUsage_scenario (a b c sub d : string) p t
    (rest : fs.filesystem) :
  (getDiskSpaceUsage
     (λ _, <[p := {| fs.mtime := t;
                     fs.content := scenario_tree a b c sub d |}]> rest)
     p initial_state).1 = Ok 400.
Proof.
  rewrite (getDiskSpaceUsage_walk _ p initial_state t).
  - unfold calculateDiskSpace. now rewrite lookup_insert_eq.
  - unfold fs.last_write_time. now rewrite lookup_insert_eq.
  - left. apply lookup_empty.
Qed.

(** C8: invoked with no argument after the program name, [main] writes the
    usage message to [std::cerr], writes nothing to [std::cout], touches
    neither the filesystem nor the cache, and returns 1. *)
Theorem main_without_directory_is_usage_error
    (disk : nat → fs.filesystem) (stol : string → result Z) argv0 s :
  (main disk stol argv0 [] s).1 = Ok 1
  ∧ cerr (main disk stol argv0 [] s).2 =
      cerr s ++ [text "Usage: "; text argv0;
                 text (" <directory_path>" +:+ newline)]
  ∧ cout (main disk stol argv0 [] s).2 = cout s
  ∧ accesses (main disk stol argv0 [] s).2 = accesses s
  ∧ cache (main disk stol argv0 [] s).2 = cache s.
Proof. repeat split. Qed.

(** ** The claims on concrete runs *)

Lemma getDiskSpaceUsage_returns_fresh_entry_witness :
  (getDiskSpaceUsage steady_disk "dir"
     (cached {| diskSpaceUsage := 400; lastModified := 5 |})).1 = Ok 400
  ∧ cache (getDiskSpaceUsage steady_disk "dir"
             (cached {| diskSpaceUsage := 400; lastModified := 5 |})).2
    = cache (cached {| diskSpaceUsage := 400; lastModified := 5 |})
  ∧ walks (getDiskSpaceUsage steady_disk "dir"
             (cached {| diskSpaceUsage := 400; lastModified := 5 |})).2
    = walks (cached {| diskSpaceUsage := 400; lastModified := 5 |}).
Proof.
  apply (getDiskSpaceUsage_returns_fresh_entry steady_disk "dir"
           (cached {| diskSpaceUsage := 400; lastModified := 5 |})
           {| diskSpaceUsage := 400; lastModified := 5 |} 5).
  - reflexivity.
  - reflexivity.
  - cbn. lia.
Defined.

Lemma getDiskSpaceUsage_recomputes_and_stores_witness :
  (getDiskSpaceUsage steady_disk "dir" initial_state).1 = Ok 400
  ∧ cache (getDiskSpaceUsage steady_disk "dir" initial_state).2 =
      <["dir" := {| diskSpaceUsage := 400; lastModified := 5 |}]>
        (cache initial_state)
  ∧ walks (getDiskSpaceUsage steady_disk "dir" initial_state).2 =
      walks initial_state ++ ["dir"].
Proof.
  apply (getDiskSpaceUsage_recomputes_and_stores steady_disk "dir"
           initial_state 5 400).
  - reflexivity.
  - left. reflexivity.
  - reflexivity.
Defined.

Lemma getDiskSpaceUsage_failed_walk_keeps_cache_witness :
  (getDiskSpaceUsage closed_disk "dir"
     (cached {| diskSpaceUsage := 400; lastModified := 5 |})).1
    = Throw (filesystem_error permission_denied)
  ∧ cache (getDiskSpaceUsage closed_disk "dir"
             (cached {| diskSpaceUsage := 400; lastModified := 5 |})).2
    = cache (cached {| diskSpaceUsage := 400; lastModified := 5 |})
  ∧ cache (getDiskSpaceUsage closed_disk "dir"
             (cached {| diskSpaceUsage := 400; lastModified := 5 |})).2
      !! "dir"
    = cache (cached {| diskSpaceUsage := 400; lastModified := 5 |}) !! "dir".
Proof.
  apply (getDiskSpaceUsage_failed_walk_keeps_cache closed_disk "dir"
           (cached {| diskSpaceUsage := 400; lastModified := 5 |}) 9).
  - reflexivity.
  - right. exists {| diskSpaceUsage := 400; lastModified := 5 |}.
    split; [reflexivity |]. cbn. lia.
  - reflexivity.
Defined.

Lemma getDiskSpaceUsage_unreadable_timestamp_raises_witness :
  (getDiskSpaceUsage empty_disk "dir"
     (cached {| diskSpaceUsage := 400; lastModified := 5 |})).1
    = Throw (filesystem_error no_such_file_or_directory)
  ∧ cache (getDiskSpaceUsage empty_disk "dir"
             (cached {| diskSpaceUsage := 400; lastModified := 5 |})).2
    = cache (cached {| diskSpaceUsage := 400; lastModified := 5 |})
  ∧ walks (getDiskSpaceUsage empty_disk "dir"
             (cached {| diskSpaceUsage := 400; lastModified := 5 |})).2
    = walks (cached {| diskSpaceUsage := 400; lastModified := 5 |}).
Proof.
  apply (getDiskSpaceUsage_unreadable_timestamp_raises empty_disk "dir"
           (cached {| diskSpaceUsage := 400; lastModified := 5 |})).
  reflexivity.
Defined.

Lemma getDiskSpaceUsage_result_is_cached_witness :
  ∃ info,
    cache (getDiskSpaceUsage steady_disk "dir" initial_state).2 !! "dir"
      = Some info
    ∧ diskSpaceUsage info = 400.
Proof.
  apply (getDiskSpaceUsage_result_is_cached steady_disk "dir"
           initial_state 400).
  reflexivity.
Defined.

Lemma getDiskSpaceUsage_stores_timestamp_read_first_witness :
  cache (getDiskSpaceUsage touched_disk "dir" initial_state).2 !! "dir" =
    Some {| diskSpaceUsage := 400; lastModified := 5 |}
  ∧ walks (getDiskSpaceUsage touched_disk "dir"
             (getDiskSpaceUsage touched_disk "dir" initial_state).2).2 =
      walks (getDiskSpaceUsage touched_disk "dir" initial_state).2 ++ ["dir"].
Proof.
  apply (getDiskSpaceUsage_stores_timestamp_read_first touched_disk "dir"
           initial_state 5 400 9 9).
  - reflexivity.
  - left. reflexivity.
  - reflexivity.
  - reflexivity.
  - lia.
  - reflexivity.
  - lia.
Defined.

Lemma calls_same_path_same_result_witness :
  ∃ r, (calls (λ _, steady_snapshot) ["dir"; "other"; "dir"]
          initial_state).1 !! 0%nat = Some r
       ∧ (calls (λ _, steady_snapshot) ["dir"; "other"; "dir"]
            initial_state).1 !! 2%nat = Some r.
Proof.
  apply (calls_same_path_same_result steady_snapshot
           ["dir"; "other"; "dir"] initial_state 0 2 "dir").
  - reflexivity.
  - reflexivity.
Defined.

(** The same runs, evaluated. *)

Example steady_run :
  (calls steady_disk ["dir"; "other"; "dir"] initial_state).1 =
    [Ok 400; Throw (filesystem_error no_such_file_or_directory); Ok 400].
Proof. reflexivity. Qed.

Example steady_run_walks_once :
  walks (calls steady_disk ["dir"; "dir"; "dir"] initial_state).2 = ["dir"].
Proof. reflexivity. Qed.

Example touched_run_walks_twice :
  walks (calls touched_disk ["dir"; "dir"; "dir"] initial_state).2
    = ["dir"; "dir"].
Proof. reflexivity. Qed.

(** * Further properties of the code *)

(** ** [calculateDiskSpace] *)

Lemma visit_in_range e :
  ∀ total size, in_size_t total → visit e total = Ok size → in_size_t size.
Proof.
  induction e as [sz | | l IHl | | t _ | k |] using node_induction;
    intros total size Htotal Hv.
  - cbn in Hv. injection Hv as <-. apply to_size_t_range.
  - discriminate.
  - rewrite visit_directory in Hv. revert total Htotal Hv.
    induction IHl as [| [name c] l Hc _ IH]; intros total Htotal Hv.
    + cbn in Hv. now injection Hv as <-.
    + cbn in Hv, Hc. destruct (visit c total) as [t' |] eqn:Hvc;
        [| discriminate].
      exact (IH t' (Hc total t' Htotal Hvc) Hv).
  - cbn in Hv. now injection Hv as <-.
  - unfold visit, fs.is_regular_file in Hv. cbn in Hv.
    destruct (fs.status t) as [[] |]; try discriminate;
      try (now injection Hv as <-).
    destruct (fs.file_size t); [| discriminate].
    injection Hv as <-. apply to_size_t_range.
  - cbn in Hv. destruct k; cbn in Hv; now injection Hv as <-.
  - discriminate.
Qed.

Lemma visit_all_in_range l :
  ∀ total size, in_size_t total → visit_all l total = Ok size →
  in_size_t size.
Proof.
  intros total size Htotal Hv. rewrite <- visit_directory in Hv.
  exact (visit_in_range _ total size Htotal Hv).
Qed.

Lemma calculateDiskSpace_in_range d p size :
  calculateDiskSpace d p = Ok size → in_size_t size.
Proof.
  unfold calculateDiskSpace, calculateDiskSpace_node.
  destruct (d !! p) as [i |]; [| discriminate].
  destruct (fs.open_directory (fs.content i)) as [l |]; [| discriminate].
  apply visit_all_in_range. unfold in_size_t, size_t_modulus. lia.
Qed.

(** X1: whatever the tree holds, a size returned by [calculateDiskSpace] is
    a [size_t] value: at least 0 and below 2^64. *)
Theorem calculateDiskSpace_returns_size_t d p size :
  calculateDiskSpace d p = Ok size → 0 ≤ size < 2 ^ 64.
Proof. apply calculateDiskSpace_in_range. Qed.

Lemma calculateDiskSpace_returns_size_t_witness : 0 ≤ 400 < 2 ^ 64.
Proof.
  apply (calculateDiskSpace_returns_size_t steady_snapshot "dir" 400).
  reflexivity.
Defined.

Lemma visit_Ok_readable e :
  ∀ total, is_Ok (visit e total) = readable e.
Proof.
  induction e as [sz | | l IHl | | t _ | k |] using node_induction;
    intros total; try reflexivity.
  - rewrite visit_directory, readable_directory. revert total.
    induction IHl as [| [name c] l Hc _ IH]; intros total; [reflexivity |].
    cbn in Hc |- *. specialize (Hc total).
    destruct (visit c total) as [t' |]; rewrite <- Hc; cbn; [apply IH | easy].
  - cbn. unfold fs.is_regular_file. cbn.
    destruct (fs.status t) as [ty |] eqn:Hs; [| reflexivity].
    destruct (resolved_body t) as [[Hreg Hf] | (ty' & Hs' & Hty & _)];
      [now rewrite Hs | |].
    + rewrite Hs in Hreg. injection Hreg as ->. now rewrite Hf.
    + rewrite Hs in Hs'. injection Hs' as <-.
      destruct ty; try reflexivity. now destruct Hty.
  - cbn. destruct k; reflexivity.
Qed.

Lemma visit_all_Ok_readable l total :
  is_Ok (visit_all l total) = readable_all l.
Proof.
  rewrite <- visit_directory, <- readable_directory. apply visit_Ok_readable.
Qed.

Lemma closed_below_directory l :
  closed_below (fs.Directory (Some l)) = closed_below_all l.
Proof.
  cbn. induction l as [| [name c] l IHl]; [reflexivity |].
  cbn. now rewrite IHl.
Qed.

Lemma closed_below_unreadable e :
  closed_below e = true → readable e = false.
Proof.
  induction e as [sz | | l IHl | | t _ | k |] using node_induction;
    try discriminate; try reflexivity.
  rewrite closed_below_directory, readable_directory.
  induction IHl as [| [name c] l Hc _ IH]; [discriminate |].
  cbn in Hc |- *. intros Hclosed.
  apply orb_prop in Hclosed as [Hclosed | Hclosed].
  - now rewrite (Hc Hclosed).
  - rewrite (IH Hclosed). apply andb_false_r.
Qed.

(** X2: when some directory below the one asked for cannot be opened,
    however deep it lies and whatever the walk has counted before reaching
    it, [calculateDiskSpace] raises: it neither skips that directory nor
    returns the total of the rest. *)
Theorem calculateDiskSpace_raises_on_closed_directory n l :
  fs.open_directory n = Ok l →
  closed_below_all l = true →
  ∃ e, calculateDiskSpace_node n = Throw e.
Proof.
  intros Hopen Hclosed. unfold calculateDiskSpace_node. rewrite Hopen.
  pose proof (visit_all_Ok_readable l 0) as Hok.
  rewrite <- readable_directory in Hok.
  rewrite closed_below_unreadable in Hok
    by now rewrite closed_below_directory.
  destruct (visit_all l 0) as [size | e]; [discriminate | eauto].
Qed.

Lemma calculateDiskSpace_raises_on_closed_directory_witness :
  ∃ e, calculateDiskSpace_node (fs.Directory (Some locked_listing)) = Throw e.
Proof.
  apply (calculateDiskSpace_raises_on_closed_directory
           (fs.Directory (Some locked_listing)) locked_listing).
  - reflexivity.
  - reflexivity.
Defined.

(** X3: on a readable tree the size returned is the counted total reduced
    modulo 2^64: a total of 2^64 bytes or more wraps around. *)
Theorem calculateDiskSpace_wraps_around n l :
  fs.open_directory n = Ok l →
  readable_all l = true →
  calculateDiskSpace_node n = Ok (counted_bytes_all l mod 2 ^ 64).
Proof. apply calculateDiskSpace_node_readable. Qed.

Lemma calculateDiskSpace_wraps_around_witness :
  calculateDiskSpace_node (fs.Directory (Some huge_listing)) = Ok 0.
Proof.
  apply (calculateDiskSpace_wraps_around
           (fs.Directory (Some huge_listing)) huge_listing).
  - reflexivity.
  - reflexivity.
Defined.

Lemma counted_bytes_all_Permutation l l' :
  l ≡ₚ l' → counted_bytes_all l = counted_bytes_all l'.
Proof.
  induction 1 as [| [name c] l l' _ IH | [n1 c1] [n2 c2] l | l1 l2 l3 _ IH1 _ IH2];
    cbn; lia.
Qed.

Lemma readable_all_Permutation l l' :
  l ≡ₚ l' → readable_all l = readable_all l'.
Proof.
  induction 1 as [| [name c] l l' _ IH | [n1 c1] [n2 c2] l | l1 l2 l3 _ IH1 _ IH2];
    cbn; [reflexivity | congruence | | congruence].
  destruct (readable c1), (readable c2); reflexivity.
Qed.

(** X4: the order in which the iterator yields the entries of a readable
    directory does not change the size returned. *)
Theorem calculateDiskSpace_order_irrelevant l l' :
  l ≡ₚ l' →
  readable_all l = true →
  calculateDiskSpace_node (fs.Directory (Some l'))
  = calculateDiskSpace_node (fs.Directory (Some l)).
Proof.
  intros Hp Hr.
  rewrite (calculateDiskSpace_node_readable (fs.Directory (Some l)) l
             eq_refl Hr).
  rewrite (calculateDiskSpace_node_readable (fs.Directory (Some l')) l'
             eq_refl).
  - now rewrite (counted_bytes_all_Permutation l l' Hp).
  - now rewrite <- (readable_all_Permutation l l' Hp).
Qed.

Lemma calculateDiskSpace_order_irrelevant_witness :
  calculateDiskSpace_node (fs.Directory (Some (reverse mixed_listing)))
  = calculateDiskSpace_node (fs.Directory (Some mixed_listing)).
Proof.
  apply (calculateDiskSpace_order_irrelevant
           mixed_listing (reverse mixed_listing)).
  - symmetry. apply reverse_Permutation.
  - reflexivity.
Defined.

(** ** [getDiskSpaceUsage] *)

(** The three ways a call can go, with what decides between them. *)
Lemma getDiskSpaceUsage_run (disk : nat → fs.filesystem) p s :
  (∃ e, fs.last_write_time (disk (accesses s)) p = Throw e
        ∧ getDiskSpaceUsage disk p s = (Throw e, access s))
  ∨ (∃ count info,
        fs.last_write_time (disk (accesses s)) p = Ok count
        ∧ cache s !! p = Some info
        ∧ to_size_t count ≤ lastModified info
        ∧ getDiskSpaceUsage disk p s = (Ok (diskSpaceUsage info), access s))
  ∨ (∃ count,
        fs.last_write_time (disk (accesses s)) p = Ok count
        ∧ (cache s !! p = None
           ∨ ∃ info, cache s !! p = Some info
                     ∧ lastModified info < to_size_t count)
        ∧ getDiskSpaceUsage disk p s =
            match calculateDiskSpace (disk (S (accesses s))) p with
            | Ok size =>
                (Ok size,
                 set_cache (<[p := {| diskSpaceUsage := size;
                                      lastModified := to_size_t count |}]>
                              (cache s))
                           (walked p s))
            | Throw e => (Throw e, walked p s)
            end).
Proof.
  destruct (fs.last_write_time (disk (accesses s)) p) as [count | e] eqn:Hm.
  2: { left. exists e. split; [reflexivity |].
       now apply getDiskSpaceUsage_no_mtime. }
  right.
  assert (Hdec : (∃ info, cache s !! p = Some info
                          ∧ to_size_t count ≤ lastModified info)
                 ∨ (cache s !! p = None
                    ∨ ∃ info, cache s !! p = Some info
                              ∧ lastModified info < to_size_t count)).
  { destruct (cache s !! p) as [info |]; [| right; left; reflexivity].
    destruct (Z_le_gt_dec (to_size_t count) (lastModified info)).
    - left. eauto.
    - right. right. exists info. split; [reflexivity | lia]. }
  destruct Hdec as [(info & Hc & Hle) | Hc].
  - left. exists count, info. repeat split; try assumption.
    now apply getDiskSpaceUsage_fast with count.
  - right. exists count. split; [reflexivity |]. split; [exact Hc |].
    now apply getDiskSpaceUsage_walk.
Qed.

Lemma calls_other_entry (disk : nat → fs.filesystem) ps p s :
  Forall (λ q, q ≠ p) ps →
  cache (calls disk ps s).2 !! p = cache s !! p.
Proof.
  intros Hps. revert s. induction Hps as [| q ps Hq _ IH]; intros s.
  - reflexivity.
  - cbn. pose proof (getDiskSpaceUsage_other_entry disk p q s) as Hstep.
    destruct (getDiskSpaceUsage disk q s) as [r s'].
    specialize (IH s'). destruct (calls disk ps s') as [rs s''].
    cbn in *. rewrite IH. apply Hstep. congruence.
Qed.

(** X5: calls for paths made of other names than a given path, however
    many such calls, whether they return a size and write their own entry or
    raise, leave the cache entry of that path (or its absence) as it was. *)
Theorem calls_leave_other_entries (disk : nat → fs.filesystem) ps p s :
  Forall (λ q, path_names q ≠ path_names p) ps →
  cache (calls disk ps s).2 !! p = cache s !! p.
Proof.
  intros Hps. apply calls_other_entry.
  apply (Forall_impl _ _ _ Hps). intros q Hq ->. now apply Hq.
Qed.

Lemma calls_leave_other_entries_witness :
  cache (calls family_disk ["dir/sub"; "other"; "missing"; "dir/sub"]
           (cached {| diskSpaceUsage := 1; lastModified := 2 |})).2 !! "dir"
  = cache (cached {| diskSpaceUsage := 1; lastModified := 2 |}) !! "dir".
Proof.
  apply (calls_leave_other_entries family_disk
           ["dir/sub"; "other"; "missing"; "dir/sub"] "dir").
  repeat constructor; vm_compute; discriminate.
Defined.

(** Two spellings of one path have the same names. *)
Example path_names_separators :
  path_names "dir//sub" = path_names "dir/sub"
  ∧ path_names "dir/sub" = ["dir"; "sub"].
Proof. split; reflexivity. Qed.

(** In that run the calls for ["dir/sub"] and ["other"] walk and write
    their entries, and the entry of ["dir"], stale as it is, stays. *)
Example family_run :
  (calls family_disk ["dir/sub"; "other"; "missing"; "dir/sub"]
     (cached {| diskSpaceUsage := 1; lastModified := 2 |})).1
  = [Ok 50; Ok 30; Throw (filesystem_error no_such_file_or_directory);
     Ok 50]
  ∧ cache (calls family_disk ["dir/sub"; "other"; "missing"; "dir/sub"]
             (cached {| diskSpaceUsage := 1; lastModified := 2 |})).2
    = {["dir" := {| diskSpaceUsage := 1; lastModified := 2 |};
        "dir/sub" := {| diskSpaceUsage := 50; lastModified := 6 |};
        "other" := {| diskSpaceUsage := 30; lastModified := 7 |}]}.
Proof. split; [reflexivity |]. apply map_eq. intros k. vm_compute. reflexivity. Qed.

(** X6: a call that raises, at the timestamp read or in the walk, leaves
    the whole cache as it was. *)
Theorem getDiskSpaceUsage_raise_keeps_cache
    (disk : nat → fs.filesystem) p s e :
  (getDiskSpaceUsage disk p s).1 = Throw e →
  cache (getDiskSpaceUsage disk p s).2 = cache s.
Proof.
  destruct (getDiskSpaceUsage_run disk p s)
    as [(e' & _ & ->) | [(count & info & _ & _ & _ & ->)
       | (count & _ & _ & ->)]]; cbn; try easy.
  destruct (calculateDiskSpace _ p); cbn; easy.
Qed.

Lemma getDiskSpaceUsage_raise_keeps_cache_witness :
  cache (getDiskSpaceUsage file_disk "dir"
           (cached {| diskSpaceUsage := 400; lastModified := 4 |})).2
  = cache (cached {| diskSpaceUsage := 400; lastModified := 4 |}).
Proof.
  apply (getDiskSpaceUsage_raise_keeps_cache file_disk "dir"
           (cached {| diskSpaceUsage := 400; lastModified := 4 |})
           (filesystem_error not_a_directory)).
  reflexivity.
Defined.

(** X7: a call removes no cache entry and never lowers the timestamp of
    one: every entry present before the call is present after it, with a
    timestamp at least as large. *)
Theorem getDiskSpaceUsage_timestamps_never_decrease
    (disk : nat → fs.filesystem) p q s info :
  cache s !! q = Some info →
  ∃ info', cache (getDiskSpaceUsage disk p s).2 !! q = Some info'
           ∧ lastModified info ≤ lastModified info'.
Proof.
  intros Hq.
  destruct (getDiskSpaceUsage_run disk p s)
    as [(e' & _ & ->) | [(count & info0 & _ & _ & _ & ->)
       | (count & _ & Hc & ->)]]; cbn.
  - exists info. split; [exact Hq | lia].
  - exists info. split; [exact Hq | lia].
  - destruct (calculateDiskSpace _ p) as [size | e]; cbn.
    + destruct (decide (p = q)) as [-> | Hne].
      * rewrite lookup_insert_eq. eexists. split; [reflexivity |]. cbn.
        destruct Hc as [Hc | (info1 & Hc & Hlt)]; [congruence |].
        rewrite Hq in Hc. injection Hc as <-. lia.
      * rewrite lookup_insert_ne by exact Hne.
        exists info. split; [exact Hq | lia].
    + exists info. split; [exact Hq | lia].
Qed.

Lemma getDiskSpaceUsage_timestamps_never_decrease_witness :
  ∃ info',
    cache (getDiskSpaceUsage steady_disk "dir"
             (cached {| diskSpaceUsage := 1; lastModified := 2 |})).2
      !! "dir" = Some info'
    ∧ lastModified {| diskSpaceUsage := 1; lastModified := 2 |}
      ≤ lastModified info'.
Proof.
  apply (getDiskSpaceUsage_timestamps_never_decrease steady_disk "dir" "dir"
           (cached {| diskSpaceUsage := 1; lastModified := 2 |})).
  reflexivity.
Defined.

(** X8: a call walks at most once, only the path asked for, and exactly
    when it could read the timestamp and the cache has no entry for the
    path or has one whose [lastModified] is strictly below the tick count
    converted to [size_t]; in every other case it does not walk.  It writes
    nothing to the output streams. *)
Theorem getDiskSpaceUsage_walks_exactly_when_stale
    (disk : nat → fs.filesystem) p s :
  (walks (getDiskSpaceUsage disk p s).2 = walks s ++ [p]
   ↔ ∃ count,
       fs.last_write_time (disk (accesses s)) p = Ok count
       ∧ (cache s !! p = None
          ∨ ∃ info, cache s !! p = Some info
                    ∧ lastModified info < to_size_t count))
  ∧ (walks (getDiskSpaceUsage disk p s).2 = walks s
     ∨ walks (getDiskSpaceUsage disk p s).2 = walks s ++ [p])
  ∧ cout (getDiskSpaceUsage disk p s).2 = cout s
  ∧ cerr (getDiskSpaceUsage disk p s).2 = cerr s.
Proof.
  destruct (getDiskSpaceUsage_run disk p s)
    as [(e' & Hm & ->) | [(count & info0 & Hm & Hc & Hle & ->)
       | (count & Hm & Hc & ->)]]; cbn.
  - repeat split; auto.
    + intros Hw. symmetry in Hw. now apply walks_grow in Hw.
    + intros (count & Hm' & _). congruence.
  - repeat split; auto.
    + intros Hw. symmetry in Hw. now apply walks_grow in Hw.
    + intros (count' & Hm' & Hstale). exfalso.
      rewrite Hm in Hm'. injection Hm' as <-.
      destruct Hstale as [Hnone | (info & Hsome & Hlt)]; [congruence |].
      rewrite Hc in Hsome. injection Hsome as <-. lia.
  - destruct (calculateDiskSpace _ p); cbn; repeat split; eauto.
Qed.

(** X9: every size and timestamp a call writes to the cache is a [size_t]
    value: a cache whose entries are all in range stays so. *)
Theorem getDiskSpaceUsage_keeps_entries_in_range
    (disk : nat → fs.filesystem) p s :
  map_Forall (λ _, entry_in_range) (cache s) →
  map_Forall (λ _, entry_in_range) (cache (getDiskSpaceUsage disk p s).2).
Proof.
  intros Hall.
  destruct (getDiskSpaceUsage_run disk p s)
    as [(e' & _ & ->) | [(count & info0 & _ & _ & _ & ->)
       | (count & _ & _ & ->)]]; cbn; try exact Hall.
  destruct (calculateDiskSpace _ p) as [size | e] eqn:Hw; cbn;
    [| exact Hall].
  apply map_Forall_insert_2; [| exact Hall].
  split; cbn.
  - exact (calculateDiskSpace_in_range _ p size Hw).
  - apply to_size_t_range.
Qed.

Lemma getDiskSpaceUsage_keeps_entries_in_range_witness :
  map_Forall (λ _, entry_in_range)
    (cache (getDiskSpaceUsage touched_disk "dir" initial_state).2).
Proof.
  apply (getDiskSpaceUsage_keeps_entries_in_range touched_disk "dir"
           initial_state).
  apply map_Forall_empty.
Defined.

(** After a call that returns a size, the entry of the path carries that
    size and a timestamp at least the one the call read. *)
Lemma getDiskSpaceUsage_entry_after (disk : nat → fs.filesystem) p s now size :
  lastModified_at (disk (accesses s)) p = Ok now →
  (getDiskSpaceUsage disk p s).1 = Ok size →
  ∃ info, cache (getDiskSpaceUsage disk p s).2 !! p = Some info
          ∧ diskSpaceUsage info = size
          ∧ now ≤ lastModified info.
Proof.
  intros Hm. apply lastModified_at_Ok in Hm as (count & Hm & ->).
  destruct (getDiskSpaceUsage_run disk p s)
    as [(e' & _ & ->) | [(count' & info & Hm' & Hc & Hle & ->)
       | (count' & Hm' & _ & ->)]]; cbn; try discriminate.
  - intros Hr. exists info. rewrite Hm in Hm'. injection Hm' as <-.
    repeat split; [exact Hc | congruence | exact Hle].
  - rewrite Hm in Hm'. injection Hm' as <-.
    destruct (calculateDiskSpace _ p) as [size' | e]; cbn; [| discriminate].
    intros Hr. eexists. rewrite lookup_insert_eq.
    repeat split; cbn; [congruence | lia].
Qed.

Lemma to_size_t_negative z :
  - size_t_modulus ≤ z < 0 → to_size_t z = z + size_t_modulus.
Proof.
  intros Hz. unfold to_size_t.
  rewrite <- (Z_mod_plus_full z 1), Z.mul_1_l.
  apply Z.mod_small. lia.
Qed.

Lemma to_size_t_nonnegative z :
  0 ≤ z < size_t_modulus → to_size_t z = z.
Proof. apply to_size_t_id. Qed.

(** X10: when a call has returned a size and the next call for the same
    path reads a tick count of the same sign that is not larger than the one
    the first call read (both 64-bit counts), the next call returns the same
    size without walking, whatever the directory holds by then: a change
    below the directory that does not move the directory's own timestamp
    goes unseen. *)
Theorem getDiskSpaceUsage_unmoved_timestamp_returns_previous
    (disk : nat → fs.filesystem) p s first next size :
  fs.last_write_time (disk (accesses s)) p = Ok first →
  (getDiskSpaceUsage disk p s).1 = Ok size →
  fs.last_write_time
    (disk (accesses (getDiskSpaceUsage disk p s).2)) p = Ok next →
  in_int64 first →
  in_int64 next →
  (first < 0 ↔ next < 0) →
  next ≤ first →
  getDiskSpaceUsage disk p (getDiskSpaceUsage disk p s).2
  = (Ok size, access (getDiskSpaceUsage disk p s).2).
Proof.
  intros Hm Hr Hnext Hf Hn Hsign Hle. unfold in_int64 in *.
  assert (Hnow : lastModified_at (disk (accesses s)) p = Ok (to_size_t first))
    by (unfold lastModified_at; now rewrite Hm).
  destruct (getDiskSpaceUsage_entry_after disk p s _ size Hnow Hr)
    as (info & Hc & <- & Hstored).
  apply (getDiskSpaceUsage_fast disk p _ next info Hnext Hc).
  assert (Hcmp : to_size_t next ≤ to_size_t first).
  { destruct (Z_lt_ge_dec first 0) as [Hneg | Hpos].
    - rewrite !to_size_t_negative; unfold size_t_modulus; lia.
    - rewrite !to_size_t_nonnegative; unfold size_t_modulus; lia. }
  lia.
Qed.

Lemma getDiskSpaceUsage_unmoved_timestamp_returns_previous_witness :
  getDiskSpaceUsage silent_disk "dir"
    (getDiskSpaceUsage silent_disk "dir" initial_state).2
  = (Ok 50, access (getDiskSpaceUsage silent_disk "dir" initial_state).2).
Proof.
  apply (getDiskSpaceUsage_unmoved_timestamp_returns_previous silent_disk
           "dir" initial_state 5 5 50).
  - reflexivity.
  - reflexivity.
  - reflexivity.
  - unfold in_int64. lia.
  - unfold in_int64. lia.
  - lia.
  - lia.
Defined.

(** In that run the directory holds 9000 bytes by the second call. *)
Example silent_disk_grown :
  calculateDiskSpace
    (silent_disk (accesses (getDiskSpaceUsage silent_disk "dir"
                              initial_state).2)) "dir" = Ok 9000.
Proof. reflexivity. Qed.

(** X11: the tick count is signed and is stored in a [size_t].  When the
    cached entry was stored from a negative 64-bit count and the count read
    now is not negative, the call takes the entry for fresh: it returns the
    cached size without walking, although the timestamp has advanced. *)
Theorem getDiskSpaceUsage_misses_advance_across_epoch
    (disk : nat → fs.filesystem) p s info old new :
  cache s !! p = Some info →
  lastModified info = to_size_t old →
  fs.last_write_time (disk (accesses s)) p = Ok new →
  - 2 ^ 63 ≤ old < 0 →
  0 ≤ new < 2 ^ 63 →
  getDiskSpaceUsage disk p s = (Ok (diskSpaceUsage info), access s).
Proof.
  intros Hc Hold Hm Ho Hn.
  apply (getDiskSpaceUsage_fast disk p s new info Hm Hc).
  rewrite Hold, (to_size_t_negative old), (to_size_t_nonnegative new);
    unfold size_t_modulus; lia.
Qed.

Lemma getDiskSpaceUsage_misses_advance_across_epoch_witness :
  getDiskSpaceUsage epoch_disk "dir"
    (cached {| diskSpaceUsage := 7; lastModified := to_size_t (-7) |})
  = (Ok 7,
     access (cached {| diskSpaceUsage := 7;
                       lastModified := to_size_t (-7) |})).
Proof.
  apply (getDiskSpaceUsage_misses_advance_across_epoch epoch_disk "dir"
           (cached {| diskSpaceUsage := 7; lastModified := to_size_t (-7) |})
           {| diskSpaceUsage := 7; lastModified := to_size_t (-7) |}
           (-7) 3).
  - reflexivity.
  - reflexivity.
  - reflexivity.
  - lia.
  - lia.
Defined.

(** X12: when the cached entry was stored from a 64-bit count and the count
    read now has the same sign, the call walks exactly when the count has
    grown. *)
Theorem getDiskSpaceUsage_walks_iff_count_grew
    (disk : nat → fs.filesystem) p s info old new :
  cache s !! p = Some info →
  lastModified info = to_size_t old →
  fs.last_write_time (disk (accesses s)) p = Ok new →
  in_int64 old →
  in_int64 new →
  (old < 0 ↔ new < 0) →
  walks (getDiskSpaceUsage disk p s).2 = walks s ++ [p] ↔ old < new.
Proof.
  intros Hc Hold Hm Ho Hn Hsign. unfold in_int64 in *.
  assert (Hcmp : to_size_t new ≤ to_size_t old ↔ new ≤ old).
  { destruct (Z_lt_ge_dec old 0) as [Hneg | Hpos].
    - rewrite !to_size_t_negative; unfold size_t_modulus; lia.
    - rewrite !to_size_t_nonnegative; unfold size_t_modulus; lia. }
  destruct (Z_le_gt_dec new old) as [Hle | Hgt].
  - rewrite (getDiskSpaceUsage_fast disk p s new info Hm Hc)
      by (rewrite Hold; lia).
    cbn. split; [| lia]. intros Hw. symmetry in Hw.
    now apply walks_grow in Hw.
  - rewrite (getDiskSpaceUsage_walk disk p s new Hm)
      by (right; exists info; split; [exact Hc | rewrite Hold; lia]).
    split; [lia |]. intros _.
    destruct (calculateDiskSpace _ p); reflexivity.
Qed.

Lemma getDiskSpaceUsage_walks_iff_count_grew_witness :
  walks (getDiskSpaceUsage steady_disk "dir"
           (cached {| diskSpaceUsage := 7; lastModified := to_size_t 4 |})).2
  = walks (cached {| diskSpaceUsage := 7; lastModified := to_size_t 4 |})
    ++ ["dir"]
  ↔ 4 < 5.
Proof.
  apply (getDiskSpaceUsage_walks_iff_count_grew steady_disk "dir"
           (cached {| diskSpaceUsage := 7; lastModified := to_size_t 4 |})
           {| diskSpaceUsage := 7; lastModified := to_size_t 4 |} 4 5).
  - reflexivity.
  - reflexivity.
  - reflexivity.
  - unfold in_int64. lia.
  - unfold in_int64. lia.
  - lia.
Defined.

(** X13: asked for a path that names a regular file and has no cache entry,
    the call raises [not_a_directory]: it neither returns the size of the
    file nor caches anything. *)
Theorem getDiskSpaceUsage_of_regular_file_raises
    (disk : nat → fs.filesystem) p s count i size :
  fs.last_write_time (disk (accesses s)) p = Ok count →
  cache s !! p = None →
  disk (S (accesses s)) !! p = Some i →
  fs.content i = fs.RegularFile size →
  (getDiskSpaceUsage disk p s).1 = Throw (filesystem_error not_a_directory)
  ∧ cache (getDiskSpaceUsage disk p s).2 = cache s.
Proof.
  intros Hm Hc Hi Hfile.
  rewrite (getDiskSpaceUsage_walk disk p s count Hm) by now left.
  unfold calculateDiskSpace, calculateDiskSpace_node.
  rewrite Hi, Hfile. cbn. auto.
Qed.

Lemma getDiskSpaceUsage_of_regular_file_raises_witness :
  (getDiskSpaceUsage file_disk "dir" initial_state).1
    = Throw (filesystem_error not_a_directory)
  ∧ cache (getDiskSpaceUsage file_disk "dir" initial_state).2
    = cache initial_state.
Proof.
  apply (getDiskSpaceUsage_of_regular_file_raises file_disk "dir"
           initial_state 5
           {| fs.mtime := 5; fs.content := fs.RegularFile 12 |} 12).
  - reflexivity.
  - reflexivity.
  - reflexivity.
  - reflexivity.
Defined.

(** ** [main] *)

Lemma wrote_cout_app l1 l2 s :
  wrote_cout l2 (wrote_cout l1 s) = wrote_cout (l1 ++ l2) s.
Proof. unfold wrote_cout. cbn. now rewrite app_assoc. Qed.

(** What went to [std::cout] before a call does not change the call. *)
Lemma getDiskSpaceUsage_wrote_cout (disk : nat → fs.filesystem) p items s :
  getDiskSpaceUsage disk p (wrote_cout items s)
  = ((getDiskSpaceUsage disk p s).1,
     wrote_cout items (getDiskSpaceUsage disk p s).2).
Proof.
  destruct (getDiskSpaceUsage_run disk p s)
    as [(e' & Hm & ->) | [(count & info & Hm & Hc & Hle & ->)
       | (count & Hm & Hc & ->)]].
  - now rewrite (getDiskSpaceUsage_no_mtime disk p (wrote_cout items s) e').
  - now rewrite (getDiskSpaceUsage_fast disk p (wrote_cout items s)
                   count info).
  - rewrite (getDiskSpaceUsage_walk disk p (wrote_cout items s) count)
      by assumption.
    cbn. destruct (calculateDiskSpace _ p); reflexivity.
Qed.

(** [main] with one argument, as its two calls. *)
Lemma main_run (disk : nat → fs.filesystem) stol argv0 directory s :
  main disk stol argv0 [directory] s =
    match getDiskSpaceUsage disk directory
            (wrote_cout (first_heading directory) s) with
    | (Throw e, s1) => (Throw e, s1)
    | (Ok size1, s1) =>
        match getDiskSpaceUsage disk directory
                (wrote_cout (first_report directory size1) s1) with
        | (Throw e, s2) => (Throw e, s2)
        | (Ok size2, s2) => (Ok 0, wrote_cout (second_report size2) s2)
        end
    end.
Proof.
  unfold main. generalize (getDiskSpaceUsage disk directory). intros call.
  unfold mbind, M_bind, mret, M_ret, wrote_cout, first_heading, first_report,
    second_report, put_cout.
  cbn.
  destruct (call _) as [[size1 | e] s1]; [| reflexivity].
  rewrite <- !app_assoc. cbn.
  destruct (call _) as [[size2 | e] s2]; [| reflexivity].
  rewrite <- !app_assoc. reflexivity.
Qed.

(** [main] with one argument, in terms of the calls on the state it
    started from. *)
Lemma main_calls (disk : nat → fs.filesystem) stol argv0 directory s :
  main disk stol argv0 [directory] s =
    match getDiskSpaceUsage disk directory s with
    | (Throw e, s1) => (Throw e, wrote_cout (first_heading directory) s1)
    | (Ok size1, s1) =>
        match getDiskSpaceUsage disk directory s1 with
        | (Throw e, s2) =>
            (Throw e,
             wrote_cout (first_heading directory
                         ++ first_report directory size1) s2)
        | (Ok size2, s2) =>
            (Ok 0,
             wrote_cout (first_heading directory
                         ++ first_report directory size1
                         ++ second_report size2) s2)
        end
    end.
Proof.
  rewrite main_run, getDiskSpaceUsage_wrote_cout.
  destruct (getDiskSpaceUsage disk directory s) as [[size1 | e] s1];
    cbv beta iota delta [fst snd]; [| reflexivity].
  rewrite wrote_cout_app, getDiskSpaceUsage_wrote_cout.
  destruct (getDiskSpaceUsage disk directory s1) as [[size2 | e] s2];
    cbv beta iota delta [fst snd]; [| reflexivity].
  now rewrite wrote_cout_app, <- app_assoc.
Qed.

Lemma getDiskSpaceUsage_streams (disk : nat → fs.filesystem) p s :
  cout (getDiskSpaceUsage disk p s).2 = cout s
  ∧ cerr (getDiskSpaceUsage disk p s).2 = cerr s.
Proof.
  destruct (getDiskSpaceUsage_run disk p s)
    as [(e' & _ & ->) | [(count & info0 & _ & _ & _ & ->)
       | (count & _ & _ & ->)]]; cbn; auto.
  destruct (calculateDiskSpace _ p); cbn; auto.
Qed.

Lemma getDiskSpaceUsage_Ok_timestamp (disk : nat → fs.filesystem) p s size :
  (getDiskSpaceUsage disk p s).1 = Ok size →
  ∃ now, lastModified_at (disk (accesses s)) p = Ok now.
Proof.
  unfold lastModified_at.
  destruct (getDiskSpaceUsage_run disk p s)
    as [(e' & _ & ->) | [(count & info0 & -> & _) | (count & -> & _)]];
    cbn; [discriminate | eauto | eauto].
Qed.

(** X14: given a directory and nothing else, [main] makes two calls for
    it; when both return a size, [main] returns 0 and [std::cout] receives
    the heading, the first size, the second heading, and the second size,
    in that order, and nothing goes to [std::cerr]. *)
Theorem main_reports_both_calls
    (disk : nat → fs.filesystem) stol argv0 directory s size1 size2 :
  (getDiskSpaceUsage disk directory s).1 = Ok size1 →
  (getDiskSpaceUsage disk directory
     (getDiskSpaceUsage disk directory s).2).1 = Ok size2 →
  (main disk stol argv0 [directory] s).1 = Ok 0
  ∧ cout (main disk stol argv0 [directory] s).2 =
      cout s ++ first_heading directory ++ first_report directory size1
             ++ second_report size2
  ∧ cerr (main disk stol argv0 [directory] s).2 = cerr s.
Proof.
  intros H1 H2. rewrite main_calls.
  destruct (getDiskSpaceUsage_streams disk directory s) as [Ho1 He1].
  destruct (getDiskSpaceUsage disk directory s) as [r1 s1].
  cbn in H1, H2, Ho1, He1. subst r1.
  destruct (getDiskSpaceUsage_streams disk directory s1) as [Ho2 He2].
  destruct (getDiskSpaceUsage disk directory s1) as [r2 s2].
  cbn in H2, Ho2, He2. subst r2.
  cbn. rewrite Ho2, Ho1, He2, He1. auto.
Qed.

Lemma main_reports_both_calls_witness :
  (main touched_disk (λ _, Ok 0) "prog" ["dir"] initial_state).1 = Ok 0
  ∧ cout (main touched_disk (λ _, Ok 0) "prog" ["dir"] initial_state).2 =
      cout initial_state ++ first_heading "dir" ++ first_report "dir" 400
                         ++ second_report 400
  ∧ cerr (main touched_disk (λ _, Ok 0) "prog" ["dir"] initial_state).2
    = cerr initial_state.
Proof.
  apply (main_reports_both_calls touched_disk (λ _, Ok 0) "prog" "dir"
           initial_state 400 400).
  - reflexivity.
  - reflexivity.
Defined.

(** X15: on a filesystem that does not change, when the first call of
    [main] returns a size, [main] returns 0, reports that size twice, and
    its second call does not walk. *)
Theorem main_unchanged_reports_same_size
    (d : fs.filesystem) stol argv0 directory s size :
  (getDiskSpaceUsage (λ _, d) directory s).1 = Ok size →
  (main (λ _, d) stol argv0 [directory] s).1 = Ok 0
  ∧ cout (main (λ _, d) stol argv0 [directory] s).2 =
      cout s ++ first_heading directory ++ first_report directory size
             ++ second_report size
  ∧ walks (main (λ _, d) stol argv0 [directory] s).2 =
      walks (getDiskSpaceUsage (λ _, d) directory s).2.
Proof.
  intros H1. rewrite main_calls.
  destruct (getDiskSpaceUsage_Ok_timestamp _ directory s size H1)
    as [now Hnow].
  destruct (getDiskSpaceUsage_entry_after _ directory s now size Hnow H1)
    as (info & Hc & <- & Hle).
  destruct (getDiskSpaceUsage_streams (λ _, d) directory s) as [Ho1 _].
  apply lastModified_at_Ok in Hnow as (count & Hm & ->).
  destruct (getDiskSpaceUsage (λ _, d) directory s) as [r1 s1].
  cbn in H1, Hc, Ho1. subst r1.
  rewrite (getDiskSpaceUsage_fast (λ _, d) directory s1 count info Hm Hc Hle).
  cbn. rewrite Ho1. auto.
Qed.

Lemma main_unchanged_reports_same_size_witness :
  (main (λ _, steady_snapshot) (λ _, Ok 0) "prog" ["dir"]
     initial_state).1 = Ok 0
  ∧ cout (main (λ _, steady_snapshot) (λ _, Ok 0) "prog" ["dir"]
            initial_state).2 =
      cout initial_state ++ first_heading "dir" ++ first_report "dir" 400
                         ++ second_report 400
  ∧ walks (main (λ _, steady_snapshot) (λ _, Ok 0) "prog" ["dir"]
             initial_state).2 =
      walks (getDiskSpaceUsage (λ _, steady_snapshot) "dir"
               initial_state).2.
Proof.
  apply (main_unchanged_reports_same_size steady_snapshot (λ _, Ok 0)
           "prog" "dir" initial_state 400).
  reflexivity.
Defined.

(** X16: when the first call of [main] raises, as it does for a directory
    that does not exist, [main] ends with that exception instead of an exit
    status: [std::cout] has received the first heading and no size, and
    nothing has gone to [std::cerr]. *)
Theorem main_first_call_raises
    (disk : nat → fs.filesystem) stol argv0 directory s e :
  (getDiskSpaceUsage disk directory s).1 = Throw e →
  (main disk stol argv0 [directory] s).1 = Throw e
  ∧ cout (main disk stol argv0 [directory] s).2 =
      cout s ++ first_heading directory
  ∧ cerr (main disk stol argv0 [directory] s).2 = cerr s.
Proof.
  intros H1. rewrite main_calls.
  destruct (getDiskSpaceUsage_streams disk directory s) as [Ho1 He1].
  destruct (getDiskSpaceUsage disk directory s) as [r1 s1].
  cbn in H1, Ho1, He1. subst r1. cbn. rewrite Ho1, He1. auto.
Qed.

Lemma main_first_call_raises_witness :
  (main empty_disk (λ _, Ok 0) "prog" ["dir"] initial_state).1
    = Throw (filesystem_error no_such_file_or_directory)
  ∧ cout (main empty_disk (λ _, Ok 0) "prog" ["dir"] initial_state).2 =
      cout initial_state ++ first_heading "dir"
  ∧ cerr (main empty_disk (λ _, Ok 0) "prog" ["dir"] initial_state).2
    = cerr initial_state.
Proof.
  apply (main_first_call_raises empty_disk (λ _, Ok 0) "prog" "dir"
           initial_state (filesystem_error no_such_file_or_directory)).
  reflexivity.
Defined.

(** X17: [main] reads the sleep argument only when there are exactly two
    arguments: with three or more, the arguments after the directory are
    ignored, [std::stol] is not called, and the run is that of the directory
    alone. *)
Theorem main_ignores_further_arguments
    (disk : nat → fs.filesystem) stol stol' argv0 directory rest s :
  length rest ≠ 1%nat →
  main disk stol argv0 (directory :: rest) s
  = main disk stol' argv0 [directory] s.
Proof.
  intros Hlen. destruct rest as [| a [| b rest]];
    [reflexivity | now destruct Hlen | reflexivity].
Qed.

Lemma main_ignores_further_arguments_witness :
  main steady_disk (λ _, Throw invalid_argument) "prog"
    ["dir"; "soon"; "later"] initial_state
  = main steady_disk (λ _, Ok 0) "prog" ["dir"] initial_state.
Proof.
  apply (main_ignores_further_arguments steady_disk
           (λ _, Throw invalid_argument) (λ _, Ok 0) "prog" "dir"
           ["soon"; "later"] initial_state).
  cbn. lia.
Defined.

(** X18: when the sleep argument is one [std::stol] rejects, [main] ends
    with that exception before it writes anything, reads the filesystem or
    touches the cache. *)
Theorem main_rejected_sleep_argument
    (disk : nat → fs.filesystem) stol argv0 directory secs s e :
  stol secs = Throw e →
  main disk stol argv0 [directory; secs] s = (Throw e, s).
Proof.
  intros Hstol. unfold main, mbind, M_bind. now rewrite Hstol.
Qed.

Lemma main_rejected_sleep_argument_witness :
  main steady_disk (λ _, Throw invalid_argument) "prog" ["dir"; "soon"]
    initial_state
  = (Throw invalid_argument, initial_state).
Proof.
  apply (main_rejected_sleep_argument steady_disk
           (λ _, Throw invalid_argument) "prog" "dir" "soon" initial_state
           invalid_argument).
  reflexivity.
Defined.

(** * The timestamp is a signed count kept in a [size_t]

    Lines 38-39 convert the signed tick count of the last write time to
    [size_t], and line 45 compares the converted values.  Counts of one sign
    keep their order under the conversion; a negative count lands above every
    non-negative one.  The comments of lines 44-47 speak of the directory
    being modified or unmodified since the last calculation; across the epoch
    of the clock the comparison answers the opposite. *)

(** C1, where the code departs from it: the path has a cache entry stored
    from a non-negative 64-bit count, and the count read now is negative,
    that is older.  The call does not return the cached size: it walks, and
    when the walk yields a size it returns that size and overwrites the
    entry. *)
Theorem getDiskSpaceUsage_walks_on_older_timestamp
    (disk : nat → fs.filesystem) p s info old new :
  cache s !! p = Some info →
  lastModified info = to_size_t old →
  fs.last_write_time (disk (accesses s)) p = Ok new →
  0 ≤ old < 2 ^ 63 →
  - 2 ^ 63 ≤ new < 0 →
  walks (getDiskSpaceUsage disk p s).2 = walks s ++ [p]
  ∧ ∀ size,
      calculateDiskSpace (disk (S (accesses s))) p = Ok size →
      (getDiskSpaceUsage disk p s).1 = Ok size
      ∧ cache (getDiskSpaceUsage disk p s).2 !! p =
          Some {| diskSpaceUsage := size; lastModified := to_size_t new |}.
Proof.
  intros Hc Hold Hm Ho Hn.
  assert (Hstale : cache s !! p = None
                   ∨ ∃ info, cache s !! p = Some info
                             ∧ lastModified info < to_size_t new).
  { right. exists info. split; [exact Hc |].
    rewrite Hold, (to_size_t_negative new), (to_size_t_nonnegative old);
      unfold size_t_modulus; lia. }
  rewrite (getDiskSpaceUsage_walk disk p s new Hm Hstale).
  split.
  - destruct (calculateDiskSpace _ p); reflexivity.
  - intros size ->. cbn. split; [reflexivity | apply lookup_insert_eq].
Qed.

Lemma getDiskSpaceUsage_walks_on_older_timestamp_witness :
  walks (getDiskSpaceUsage before_epoch_disk "dir"
           (cached {| diskSpaceUsage := 1; lastModified := to_size_t 3 |})).2
    = walks (cached {| diskSpaceUsage := 1; lastModified := to_size_t 3 |})
      ++ ["dir"]
  ∧ ∀ size,
      calculateDiskSpace
        (before_epoch_disk
           (S (accesses (cached {| diskSpaceUsage := 1;
                                   lastModified := to_size_t 3 |}))))
        "dir" = Ok size →
      (getDiskSpaceUsage before_epoch_disk "dir"
         (cached {| diskSpaceUsage := 1; lastModified := to_size_t 3 |})).1
        = Ok size
      ∧ cache (getDiskSpaceUsage before_epoch_disk "dir"
                 (cached {| diskSpaceUsage := 1;
                            lastModified := to_size_t 3 |})).2 !! "dir" =
          Some {| diskSpaceUsage := size; lastModified := to_size_t (-7) |}.
Proof.
  apply (getDiskSpaceUsage_walks_on_older_timestamp before_epoch_disk "dir"
           (cached {| diskSpaceUsage := 1; lastModified := to_size_t 3 |})
           {| diskSpaceUsage := 1; lastModified := to_size_t 3 |} 3 (-7)).
  - reflexivity.
  - reflexivity.
  - reflexivity.
  - lia.
  - lia.
Defined.

(** That run, evaluated: the cached size is 1, the timestamp read is older
    than the cached one, and the call returns 400 after a walk. *)
Example before_epoch_run :
  (getDiskSpaceUsage before_epoch_disk "dir"
     (cached {| diskSpaceUsage := 1; lastModified := to_size_t 3 |})).1
    = Ok 400
  ∧ walks (getDiskSpaceUsage before_epoch_disk "dir"
             (cached {| diskSpaceUsage := 1;
                        lastModified := to_size_t 3 |})).2 = ["dir"].
Proof. split; reflexivity. Qed.

(** C2, where the code departs from it: the cache entry of ["dir"] was
    stored from the count -7, the count read now is 3, strictly newer, and
    the directory holds 400 bytes.  The call does not walk: it returns the
    cached size, 7, and leaves the cache as it was. *)
Theorem getDiskSpaceUsage_keeps_entry_older_across_epoch :
  -7 < 3
  ∧ fs.last_write_time (epoch_disk 0) "dir" = Ok 3
  ∧ cache (cached {| diskSpaceUsage := 7; lastModified := to_size_t (-7) |})
      !! "dir"
    = Some {| diskSpaceUsage := 7; lastModified := to_size_t (-7) |}
  ∧ calculateDiskSpace (epoch_disk 1) "dir" = Ok 400
  ∧ (getDiskSpaceUsage epoch_disk "dir"
       (cached {| diskSpaceUsage := 7; lastModified := to_size_t (-7) |})).1
    = Ok 7
  ∧ walks (getDiskSpaceUsage epoch_disk "dir"
             (cached {| diskSpaceUsage := 7;
                        lastModified := to_size_t (-7) |})).2 = []
  ∧ cache (getDiskSpaceUsage epoch_disk "dir"
             (cached {| diskSpaceUsage := 7;
                        lastModified := to_size_t (-7) |})).2
    = cache (cached {| diskSpaceUsage := 7; lastModified := to_size_t (-7) |}).
Proof.
  split; [lia |]. split; [reflexivity |]. split; [reflexivity |].
  split; [reflexivity |].
  rewrite (getDiskSpaceUsage_fast epoch_disk "dir"
             (cached {| diskSpaceUsage := 7; lastModified := to_size_t (-7) |})
             3 {| diskSpaceUsage := 7; lastModified := to_size_t (-7) |}).
  - repeat split.
  - reflexivity.
  - reflexivity.
  - vm_compute. discriminate.
Qed.

(** C10, where the code departs from it: a call walks after reading a
    negative 64-bit count, the timestamp of the directory advances past the
    epoch while the walk runs, and the next call reads the advanced,
    non-negative count.  The entry holds the count read before the walk, as
    C10 says, yet the next call takes it for fresh: it returns the size of
    the first walk without walking again. *)
Theorem getDiskSpaceUsage_misses_advance_during_walk
    (disk : nat → fs.filesystem) p s old new size :
  fs.last_write_time (disk (accesses s)) p = Ok old →
  (cache s !! p = None
   ∨ ∃ info, cache s !! p = Some info
             ∧ lastModified info < to_size_t old) →
  calculateDiskSpace (disk (S (accesses s))) p = Ok size →
  fs.last_write_time
    (disk (accesses (getDiskSpaceUsage disk p s).2)) p = Ok new →
  - 2 ^ 63 ≤ old < 0 →
  0 ≤ new < 2 ^ 63 →
  cache (getDiskSpaceUsage disk p s).2 !! p =
    Some {| diskSpaceUsage := size; lastModified := to_size_t old |}
  ∧ getDiskSpaceUsage disk p (getDiskSpaceUsage disk p s).2
    = (Ok size, access (getDiskSpaceUsage disk p s).2).
Proof.
  intros Hm Hc Hw Hnext Ho Hn.
  assert (Hentry : cache (getDiskSpaceUsage disk p s).2 !! p =
    Some {| diskSpaceUsage := size; lastModified := to_size_t old |}).
  { rewrite (getDiskSpaceUsage_walk disk p s old Hm Hc), Hw. cbn.
    apply lookup_insert_eq. }
  split; [exact Hentry |].
  rewrite (getDiskSpaceUsage_fast disk p _ new _ Hnext Hentry);
    [reflexivity |].
  cbn. rewrite (to_size_t_negative old), (to_size_t_nonnegative new);
    unfold size_t_modulus; lia.
Qed.

Lemma getDiskSpaceUsage_misses_advance_during_walk_witness :
  cache (getDiskSpaceUsage crossing_disk "dir" initial_state).2 !! "dir" =
    Some {| diskSpaceUsage := 400; lastModified := to_size_t (-7) |}
  ∧ getDiskSpaceUsage crossing_disk "dir"
      (getDiskSpaceUsage crossing_disk "dir" initial_state).2
    = (Ok 400,
       access (getDiskSpaceUsage crossing_disk "dir" initial_state).2).
Proof.
  apply (getDiskSpaceUsage_misses_advance_during_walk crossing_disk "dir"
           initial_state (-7) 3 400).
  - reflexivity.
  - left. reflexivity.
  - reflexivity.
  - reflexivity.
  - lia.
  - lia.
Defined.

(** In that run the directory holds 1400 bytes by the second call, and the
    timestamp the second call reads is the advanced one. *)
Example crossing_disk_grown :
  calculateDiskSpace
    (crossing_disk (accesses (getDiskSpaceUsage crossing_disk "dir"
                                initial_state).2)) "dir" = Ok 1400
  ∧ fs.last_write_time (crossing_disk 1) "dir" = Ok 3.
Proof. split; reflexivity. Qed.
